(** * The metric simulator of the DP federated-learning dashboard

    A shallow embedding of [simulate_federated_training] from
    [dp_fl_dashboard.py], and the properties of its result.

    Modelling choices.
    - Python [int]s are [Z]; Python [float]s are idealised as exact
      rationals [Q] (no rounding, no overflow), compared with [==]. An
      [int] enters float arithmetic as itself; Python raises
      [OverflowError] for one beyond [float_range], which is left out.
    - [random.uniform(a, b)] is CPython's [a + (b - a) * random()]; the
      successive values of [random()] are given by the world, which also
      counts the calls and logs the pauses asked from [time.sleep].
    - A Python exception is the left summand of the result.
    - Streamlit is seen from the script: a widget call returns the value
      the user has set, a display call adds an element to the page, and
      [st.session_state] is a finite map that outlives a run of the
      script. *)

From Stdlib Require Import ZArith QArith Qminmax Qround Lqa Lia.
From stdpp Require Import base list strings pretty gmap.

Local Open Scope Q_scope.

(** ** The Python runtime the function relies on *)

Inductive exn : Type :=
  | ZeroDivisionError
  | IndexError.

Record World : Type := mkWorld {
  source : nat -> Q;    (* the n-th value that random.random() gives *)
  draws : nat;          (* calls made to random.uniform so far *)
  pauses : list Q       (* arguments of time.sleep so far, latest first *)
}.

Definition M (A : Type) : Type := World -> exn + A * World.

Definition ret {A} (x : A) : M A := fun w => inr (x, w).

Definition raise {A} (e : exn) : M A := fun _ => inl e.

Definition bind {A B} (m : M A) (k : A -> M B) : M B :=
  fun w => match m w with
           | inl e => inl e
           | inr (x, w') => k x w'
           end.

Notation "x <- m ;; k" := (bind m (fun x => k))
  (at level 100, m at next level, right associativity).
Notation "m ;;; k" := (bind m (fun _ => k))
  (at level 100, right associativity).

(** What the call number [n] of [random.uniform], made with [(a, b)],
    returns. *)
Definition uniform_draw (a b : Q) (w : World) (n : nat) : Q :=
  a + (b - a) * source w n.

(** [random.uniform(a, b)] *)
Definition random_uniform (a b : Q) : M Q :=
  fun w => inr (uniform_draw a b w (draws w),
                mkWorld (source w) (S (draws w)) (pauses w)).

(** [time.sleep(d)] *)
Definition time_sleep (d : Q) : M unit :=
  fun w => inr (tt, mkWorld (source w) (draws w) (d :: pauses w)).

(** [range(start, stop)] *)
Definition range (start stop : Z) : list Z :=
  (fun i => start + Z.of_nat i)%Z <$> seq 0 (Z.to_nat (stop - start)).

(** The position an index denotes in a list of length [len]: a negative
    index counts from the end. *)
Definition resolve_index (len : nat) (i : Z) : option nat :=
  let j := (if i <? 0 then Z.of_nat len + i else i)%Z in
  if (j <? 0)%Z then None
  else if (j <? Z.of_nat len)%Z then Some (Z.to_nat j) else None.

(** [l[i]] *)
Definition getitem {A} (l : list A) (i : Z) : M A :=
  match resolve_index (length l) i ≫= (l !!.) with
  | Some x => ret x
  | None => raise IndexError
  end.

(** [ls[i].append(x)]: the inner list is updated in place. *)
Definition append_at {A} (ls : list (list A)) (i : Z) (x : A) : M (list (list A)) :=
  match resolve_index (length ls) i with
  | Some j => ret (alter (fun t => t ++ [x]) j ls)
  | None => raise IndexError
  end.



(** [x / n] for a float [x] and an int [n] within [float_range]. For an
    int beyond it Python raises [OverflowError] when it converts [n] to a
    float; that path is not modelled, and what is stated of a division by
    such an [n] carries [float_range n]. *)
Definition truediv (x : Q) (n : Z) : M Q :=
  if (n =? 0)%Z then raise ZeroDivisionError else ret (x / inject_Z n).

(** [for x in l: s = body x s] *)
Fixpoint for_each {A S} (l : list A) (body : A -> S -> M S) (s : S) : M S :=
  match l with
  | [] => ret s
  | x :: l' => s' <- body x s ;; for_each l' body s'
  end.

(** [[f x for x in l]] *)
Fixpoint list_comprehension {A B} (f : A -> M B) (l : list A) : M (list B) :=
  match l with
  | [] => ret []
  | x :: l' => y <- f x ;; ys <- list_comprehension f l' ;; ret (y :: ys)
  end.

(** ** The simulator *)

(** One entry of [results]. *)
Record RoundRecord : Type := mkRound {
  round : Z;
  global_accuracy : Q;
  epsilon_advanced : Q;
  epsilon_naive : Q;
  client_accuracies : list Q
}.

(** What the loop over the clients carries:
    [client_accuracies], [per_client_acc], [global_accuracy]. *)
Definition ClientLoop : Type := list (list Q) * list Q * Q.

(** What the loop over the rounds carries:
    [results], [global_epsilon], [naive_epsilon], [client_accuracies]. *)
Definition RoundLoop : Type := list RoundRecord * Q * Q * list (list Q).

(** The body of [for c in range(num_clients)]. *)
Definition client_body (rnd : Z) (noise_multiplier : Q) (c : Z) (st : ClientLoop)
  : M ClientLoop :=
  let '(tracks, per_client_acc, acc_sum) := st in
  u <- random_uniform 0.01 0.03 ;;
  let acc_increment := u + (0.005 * inject_Z rnd) - (0.01 * noise_multiplier) in
  track <- getitem tracks c ;;
  prev <- getitem track (-1) ;;
  let new_acc := Qmin (prev + acc_increment) 1.0 in
  tracks' <- append_at tracks c new_acc ;;
  ret (tracks', per_client_acc ++ [new_acc], acc_sum + new_acc).

(** The body of [for rnd in range(1, num_rounds + 1)]. *)
Definition round_body (num_clients : Z) (noise_multiplier : Q) (rnd : Z) (st : RoundLoop)
  : M RoundLoop :=
  let '(results, global_epsilon, naive_epsilon, tracks) := st in
  st' <- for_each (range 0 num_clients) (client_body rnd noise_multiplier) (tracks, [], 0) ;;
  let '(tracks', per_client_acc, acc_sum) := st' in
  mean_acc <- truediv acc_sum num_clients ;;
  let eps_increment_adv := 0.2 + 0.1 * inject_Z rnd - 0.05 * noise_multiplier in
  let eps_increment_naive := 0.5 + 0.2 * inject_Z rnd in
  let global_epsilon' := global_epsilon + Qmax eps_increment_adv 0.1 in
  let naive_epsilon' := naive_epsilon + eps_increment_naive in
  let results' := results ++ [mkRound rnd mean_acc global_epsilon' naive_epsilon' per_client_acc] in
  time_sleep 0.5 ;;;
  ret (results', global_epsilon', naive_epsilon', tracks').

Definition simulate_federated_training (num_clients : Z) (noise_multiplier : Q) (num_rounds : Z)
  : M (list RoundRecord * list (list Q)) :=
  tracks <- list_comprehension (fun _ => x <- random_uniform 0.4 0.6 ;; ret [x])
                               (range 0 num_clients) ;;
  st <- for_each (range 1 (num_rounds + 1)) (round_body num_clients noise_multiplier)
                 ([], 0, 0, tracks) ;;
  let '(results, _, _, tracks') := st in
  ret (results, tracks').

(** A world whose random source always gives [x]. *)
Definition const_world (x : Q) : World := mkWorld (fun _ => x) 0 [].

(** ** The page: [main] *)

(** [round(x, ndigits)] on exact numbers: the closest multiple of
    [10^-ndigits], a tie going to the even one. *)
Definition py_round (x : Q) (ndigits : nat) : Q :=
  let scale := inject_Z (10 ^ Z.of_nat ndigits) in
  let y := x * scale in
  let lo := Qfloor y in
  let n := match y - inject_Z lo ?= 1 # 2 with
           | Lt => lo
           | Gt => (lo + 1)%Z
           | Eq => if Z.even lo then lo else (lo + 1)%Z
           end in
  inject_Z n / scale.

(** What the widgets of the sidebar return in one run of the script. *)
Record Widgets : Type := mkWidgets {
  clients_slider : Z;
  noise_slider : Q;
  rounds_slider : Z;
  start_button : bool
}.

(** What the display calls put on the page. *)
Inductive element : Type :=
  | PageConfig (layout : string)
  | Title (body : string)
  | Header (body : string)
  | Markdown (body : string)
  | Info (num_clients : Z) (noise_multiplier : Q) (num_rounds : Z)
  | Success (body : string)
  | Subheader (body : string)
  | LineChart (data : list (string * list Q))
  | WriteValue (label : string) (value : Q)
  | Write (body : string).

Record Page : Type := mkPage {
  session_state : gmap string bool;
  rendered : list element       (* in the order of the calls *)
}.

Inductive app_exn : Type :=
  | Raised (e : exn)            (* an exception of the simulator or of a list *)
  | AttributeError.

Definition UI (A : Type) : Type := Page -> World -> app_exn + A * Page * World.

Definition ui_ret {A} (x : A) : UI A := fun p w => inr (x, p, w).

Definition ui_bind {A B} (m : UI A) (k : A -> UI B) : UI B :=
  fun p w => match m p w with
             | inl e => inl e
             | inr (x, p', w') => k x p' w'
             end.

Notation "x <~ m ;; k" := (ui_bind m (fun x => k))
  (at level 100, m at next level, right associativity).
Notation "m ;;~ k" := (ui_bind m (fun _ => k))
  (at level 100, right associativity).

(** A computation that does not touch the page. *)
Definition run {A} (m : M A) : UI A :=
  fun p w => match m w with
             | inl e => inl (Raised e)
             | inr (x, w') => inr (x, p, w')
             end.

(** A display call. *)
Definition show (e : element) : UI unit :=
  fun p w => inr (tt, mkPage (session_state p) (rendered p ++ [e]), w).

(** [st.slider(label, min_value, max_value, value, step)], set to
    [chosen]. *)
Definition st_slider {A} (label : string) (min_value max_value value : A)
    (step : option A) (chosen : A) : UI A :=
  ui_ret chosen.

(** [st.button(label)], [clicked] telling whether the click caused this
    run. *)
Definition st_button (label : string) (clicked : bool) : UI bool :=
  ui_ret clicked.

(** [st.session_state.key = v] *)
Definition session_set (key : string) (v : bool) : UI unit :=
  fun p w => inr (tt, mkPage (<[key := v]> (session_state p)) (rendered p), w).

(** [st.session_state.get(key, dflt)] *)
Definition session_get (key : string) (dflt : bool) : UI bool :=
  fun p w => inr (default dflt (session_state p !! key), p, w).

(** [st.session_state.key] *)
Definition session_attr (key : string) : UI bool :=
  fun p w => match session_state p !! key with
             | Some v => inr (v, p, w)
             | None => inl AttributeError
             end.

(** [enumerate(l)] *)
Definition enumerate {A} (l : list A) : list (Z * A) :=
  imap (fun i x => (Z.of_nat i, x)) l.

(** [for x in l: body x] *)
Fixpoint ui_for_each {A} (l : list A) (body : A -> UI unit) : UI unit :=
  match l with
  | [] => ui_ret tt
  | x :: l' => body x ;;~ ui_for_each l' body
  end.

(** The branch of [main] taken when [st.session_state.run_training]
    holds. *)
Definition train_and_render (num_clients : Z) (noise_multiplier : Q) (num_rounds : Z)
  : UI unit :=
  show (Info num_clients noise_multiplier num_rounds) ;;~
  out <~ run (simulate_federated_training num_clients noise_multiplier num_rounds) ;;
  let '(results, per_client_acc_history) := out in
  show (Success "Training Complete!") ;;~
  session_set "run_training" false ;;~
  let rounds := round <$> results in
  let global_acc := global_accuracy <$> results in
  let eps_adv := epsilon_advanced <$> results in
  let eps_naive := epsilon_naive <$> results in
  show (Subheader "📈 Global Accuracy") ;;~
  show (LineChart [("Global Accuracy", global_acc)]) ;;~
  show (Subheader "🔐 Epsilon Growth (Advanced vs. Naive)") ;;~
  show (LineChart [("Advanced Composition", eps_adv);
                   ("Naive Composition", eps_naive)]) ;;~
  show (Markdown "---") ;;~
  show (Subheader "👥 Per-Client Accuracy") ;;~
  ui_for_each (enumerate per_client_acc_history)
    (fun '(client_id, acc_history) =>
       show (LineChart [("Client " +:+ pretty (client_id + 1)%Z, acc_history)])) ;;~
  show (Markdown "---") ;;~
  final_acc <~ run (getitem global_acc (-1)) ;;
  show (WriteValue "✅ Final Global Accuracy:" (py_round final_acc 4)) ;;~
  final_adv <~ run (getitem eps_adv (-1)) ;;
  show (WriteValue "🔐 Final Epsilon (Advanced):" (py_round final_adv 4)) ;;~
  final_naive <~ run (getitem eps_naive (-1)) ;;
  show (WriteValue "🔐 Final Epsilon (Naive):" (py_round final_naive 4)).

Definition main (ui : Widgets) : UI unit :=
  show (PageConfig "wide") ;;~
  show (Title "Differential Private Federated Learning Dashboard") ;;~
  show (Header "Training Configuration") ;;~
  num_clients <~ st_slider "Number of Clients" 1%Z 10%Z 3%Z None (clients_slider ui) ;;
  noise_multiplier <~ st_slider "Noise Multiplier (σ)" 0.5 3.0 1.0 (Some 0.1)
                                (noise_slider ui) ;;
  num_rounds <~ st_slider "Number of Rounds" 1%Z 20%Z 5%Z None (rounds_slider ui) ;;
  show (Markdown "---") ;;~
  clicked <~ st_button "🚀 Start Training" (start_button ui) ;;
  (if clicked
   then session_set "run_training" true
   else (flag <~ session_get "run_training" false ;;
         session_set "run_training" flag)) ;;~
  run_training <~ session_attr "run_training" ;;
  if run_training
  then train_and_render num_clients noise_multiplier num_rounds
  else show (Write "Use the sidebar to configure and run a training session.").

(** The values the three sliders of [main] can be set to. *)
Definition within_sliders (ui : Widgets) : Prop :=
  (1 <= clients_slider ui <= 10)%Z
  /\ 0.5 <= noise_slider ui <= 3.0
  /\ (1 <= rounds_slider ui <= 20)%Z.

(** ** The quantities the properties are stated with *)

(** The accuracy a client reaches in round [rnd] from [prev] when
    [random()] gives [raw]. *)
Definition next_acc (rnd : Z) (noise_multiplier raw prev : Q) : Q :=
  Qmin (prev + (0.01 + (0.03 - 0.01) * raw + 0.005 * inject_Z rnd
                - 0.01 * noise_multiplier)) 1.0.

(** [t[-1]], for a track that is not empty. *)
Definition last_acc (t : list Q) : Q := default 0 (last t).

(** The values of one round, the [i]-th client using draw number [d + i]. *)
Definition round_accs (rnd : Z) (nm : Q) (src : nat -> Q) (d : nat)
    (tracks : list (list Q)) : list Q :=
  imap (fun i t => next_acc rnd nm (src (d + i)%nat) (last_acc t)) tracks.

(** The tracks after that round. *)
Definition round_tracks (rnd : Z) (nm : Q) (src : nat -> Q) (d : nat)
    (tracks : list (list Q)) : list (list Q) :=
  imap (fun i t => t ++ [next_acc rnd nm (src (d + i)%nat) (last_acc t)]) tracks.

(** What a round adds to [global_epsilon] and to [naive_epsilon]. *)
Definition eps_added_adv (nm : Q) (rnd : Z) : Q :=
  Qmax (0.2 + 0.1 * inject_Z rnd - 0.05 * nm) 0.1.

Definition eps_added_naive (rnd : Z) : Q := 0.5 + 0.2 * inject_Z rnd.

(** What [round_body] computes when no exception is raised. *)
Definition round_step (nc : Z) (nm : Q) (rnd : Z) (st : RoundLoop) (w : World)
  : RoundLoop * World :=
  let '(results, ge, ne, tracks) := st in
  let per := round_accs rnd nm (source w) (draws w) tracks in
  let ge' := ge + eps_added_adv nm rnd in
  let ne' := ne + eps_added_naive rnd in
  (results ++ [mkRound rnd (fold_left Qplus per 0 / inject_Z nc) ge' ne' per],
   ge', ne', round_tracks rnd nm (source w) (draws w) tracks,
   mkWorld (source w) (draws w + length tracks) (0.5 :: pauses w)).

(** The tracks a round can start from: one per client, none empty. *)
Definition tracks_ready (nc : Z) (tracks : list (list Q)) : Prop :=
  length tracks = Z.to_nat nc /\ Forall (fun t => t <> []) tracks.

(** [global_epsilon] and [naive_epsilon] after [k] rounds, summed in the
    order of the loop. *)
Definition eps_adv_after (nm : Q) (k : nat) : Q :=
  fold_left Qplus (eps_added_adv nm <$> (Z.of_nat <$> seq 1 k)) 0.

Definition eps_naive_after (k : nat) : Q :=
  fold_left Qplus (eps_added_naive <$> (Z.of_nat <$> seq 1 k)) 0.

(** The seed of client [c], from a run started in world [w0]. *)
Definition seed_of (w0 : World) (c : nat) : Q :=
  uniform_draw 0.4 0.6 w0 (draws w0 + c).

(** The number of the draw made for client [c] in round [S j], among
    [n] clients. *)
Definition draw_index (w0 : World) (n j c : nat) : nat :=
  (draws w0 + n + j * n + c)%nat.

(** The facts about [results] and the tracks after [k] rounds. *)
Record run_facts (nc : Z) (nm : Q) (w0 : World) (k : nat)
    (results : list RoundRecord) (tracks : list (list Q)) : Prop := {
  rf_rounds : length results = k;
  rf_clients : length tracks = Z.to_nat nc;
  rf_track_len : Forall (fun t => length t = S k) tracks;
  rf_record : forall j rec, results !! j = Some rec ->
    round rec = Z.of_nat (S j)
    /\ epsilon_advanced rec = eps_adv_after nm (S j)
    /\ epsilon_naive rec = eps_naive_after (S j)
    /\ global_accuracy rec
       = fold_left Qplus (client_accuracies rec) 0 / inject_Z nc
    /\ Forall2 (fun x t => t !! S j = Some x) (client_accuracies rec) tracks;
  rf_seed : forall c t, tracks !! c = Some t -> t !! 0%nat = Some (seed_of w0 c);
  rf_next : forall c t j, tracks !! c = Some t -> (j < k)%nat ->
    exists prev,
      t !! j = Some prev
      /\ t !! S j = Some (next_acc (Z.of_nat (S j)) nm
                            (source w0 (draw_index w0 (Z.to_nat nc) j c)) prev)
}.

(** The invariant of the loop over the rounds. *)
Definition rounds_inv (nc : Z) (nm : Q) (w0 : World) (k : nat)
    (st : RoundLoop) (w : World) : Prop :=
  let '(results, ge, ne, tracks) := st in
  run_facts nc nm w0 k results tracks
  /\ ge = eps_adv_after nm k
  /\ ne = eps_naive_after k
  /\ w = mkWorld (source w0) (draws w0 + Z.to_nat nc + k * Z.to_nat nc)
                 (replicate k 0.5 ++ pauses w0).

(** The world a run started in [w0] ends in. *)
Definition final_world (nc nr : Z) (w0 : World) : World :=
  mkWorld (source w0)
          (draws w0 + Z.to_nat nc + Z.to_nat nr * Z.to_nat nc)
          (replicate (Z.to_nat nr) 0.5 ++ pauses w0).

(** The sum of a list. *)
Definition Qsum (l : list Q) : Q := fold_right Qplus 0 l.

(** The arithmetic mean of a list. *)
Definition mean (l : list Q) : Q := Qsum l / inject_Z (Z.of_nat (length l)).

(** Under [noise_multiplier <= 3] a track cannot fall below this after
    [j] rounds. *)
Definition floor_after (j : nat) : Q :=
  match j with
  | 0%nat => 0.4
  | 1%nat => 0.385
  | 2%nat => 0.37
  | _ => 0.355
  end.

(** Whether a run of [main] trains: the button was clicked, or the
    session still holds a raised flag. *)
Definition triggered (ui : Widgets) (p : Page) : bool :=
  start_button ui || default false (session_state p !! "run_training").

(** What [main] displays before it looks at the flag. *)
Definition opening : list element :=
  [PageConfig "wide";
   Title "Differential Private Federated Learning Dashboard";
   Header "Training Configuration";
   Markdown "---"].

(** One chart per client, numbered from 1. *)
Definition client_charts (tracks : list (list Q)) : list element :=
  (fun '(client_id, acc_history) =>
     LineChart [("Client " +:+ pretty (client_id + 1)%Z, acc_history)])
    <$> enumerate tracks.

(** What a training run displays after [opening], given what the
    simulator returned and the last of its records. *)
Definition training_report (nc : Z) (nm : Q) (nr : Z)
    (results : list RoundRecord) (tracks : list (list Q)) (final : RoundRecord)
  : list element :=
  [Info nc nm nr;
   Success "Training Complete!";
   Subheader "📈 Global Accuracy";
   LineChart [("Global Accuracy", global_accuracy <$> results)];
   Subheader "🔐 Epsilon Growth (Advanced vs. Naive)";
   LineChart [("Advanced Composition", epsilon_advanced <$> results);
              ("Naive Composition", epsilon_naive <$> results)];
   Markdown "---";
   Subheader "👥 Per-Client Accuracy"]
  ++ client_charts tracks
  ++ [Markdown "---";
      WriteValue "✅ Final Global Accuracy:" (py_round (global_accuracy final) 4);
      WriteValue "🔐 Final Epsilon (Advanced):" (py_round (epsilon_advanced final) 4);
      WriteValue "🔐 Final Epsilon (Naive):" (py_round (epsilon_naive final) 4)].

(** ** Running the runtime operations *)

Lemma bind_ok {A B} (m : M A) (k : A -> M B) w x w' :
  m w = inr (x, w') -> bind m k w = k x w'.
Proof. intros E. unfold bind. now rewrite E. Qed.


Lemma range_from_0 (n : Z) : range 0 n = Z.of_nat <$> seq 0 (Z.to_nat n).
Proof. unfold range. now rewrite Z.sub_0_r. Qed.

Lemma range_from_1 (n : Z) : range 1 (n + 1) = Z.of_nat <$> seq 1 (Z.to_nat n).
Proof.
  unfold range. replace (n + 1 - 1)%Z with n by lia.
  rewrite <- fmap_S_seq, <- list_fmap_compose.
  apply list_fmap_ext. intros _ i _. simpl. lia.
Qed.

Lemma resolve_index_nat (len i : nat) :
  (i < len)%nat -> resolve_index len (Z.of_nat i) = Some i.
Proof.
  intros H. unfold resolve_index.
  assert (E0 : (Z.of_nat i <? 0)%Z = false) by (apply Z.ltb_ge; lia).
  assert (E1 : (Z.of_nat i <? Z.of_nat len)%Z = true) by (apply Z.ltb_lt; lia).
  rewrite !E0, E1. f_equal. lia.
Qed.

Lemma resolve_index_last (len : nat) :
  resolve_index (S len) (-1) = Some len.
Proof.
  unfold resolve_index. change (-1 <? 0)%Z with true. cbv iota.
  assert (E0 : (Z.of_nat (S len) + -1 <? 0)%Z = false) by (apply Z.ltb_ge; lia).
  assert (E1 : (Z.of_nat (S len) + -1 <? Z.of_nat (S len))%Z = true)
    by (apply Z.ltb_lt; lia).
  rewrite E0, E1. f_equal. lia.
Qed.

Lemma getitem_nat {A} (l : list A) (i : nat) (x : A) w :
  l !! i = Some x -> getitem l (Z.of_nat i) w = inr (x, w).
Proof.
  intros H. unfold getitem.
  rewrite resolve_index_nat by (eapply lookup_lt_Some; eauto).
  simpl. now rewrite H.
Qed.

Lemma getitem_last {A} (l : list A) (x : A) w :
  last l = Some x -> getitem l (-1) w = inr (x, w).
Proof.
  intros H. unfold getitem.
  destruct l as [|y l]; [discriminate|].
  cbn [length]. rewrite resolve_index_last. simpl.
  rewrite last_lookup in H. cbn [length Nat.pred] in H. now rewrite H.
Qed.

Lemma append_at_nat {A} (ls : list (list A)) (i : nat) (x : A) w :
  (i < length ls)%nat ->
  append_at ls (Z.of_nat i) x w = inr (alter (fun t => t ++ [x]) i ls, w).
Proof. intros H. unfold append_at. now rewrite resolve_index_nat. Qed.

(** ** One pass over the clients *)

Lemma round_accs_cons rnd nm src d t tracks :
  round_accs rnd nm src d (t :: tracks)
  = next_acc rnd nm (src d) (last_acc t) :: round_accs rnd nm src (S d) tracks.
Proof.
  unfold round_accs. rewrite imap_cons, Nat.add_0_r. f_equal.
  apply imap_ext. intros i x _. simpl. now rewrite Nat.add_succ_r.
Qed.

Lemma round_tracks_cons rnd nm src d t tracks :
  round_tracks rnd nm src d (t :: tracks)
  = (t ++ [next_acc rnd nm (src d) (last_acc t)])
      :: round_tracks rnd nm src (S d) tracks.
Proof.
  unfold round_tracks. rewrite imap_cons, Nat.add_0_r. f_equal.
  apply imap_ext. intros i x _. simpl. now rewrite Nat.add_succ_r.
Qed.

Lemma client_loop_run rnd nm (todo : list (list Q)) :
  forall (done : list (list Q)) (per : list Q) (acc : Q) (w : World),
    Forall (fun t => t <> []) todo ->
    for_each (Z.of_nat <$> seq (length done) (length todo)) (client_body rnd nm)
             (done ++ todo, per, acc) w
    = inr ((done ++ round_tracks rnd nm (source w) (draws w) todo,
            per ++ round_accs rnd nm (source w) (draws w) todo,
            fold_left Qplus (round_accs rnd nm (source w) (draws w) todo) acc),
           mkWorld (source w) (draws w + length todo) (pauses w)).
Proof.
  induction todo as [|t todo IH]; intros done per acc w Hne.
  - simpl. unfold ret. rewrite !app_nil_r, Nat.add_0_r. now destruct w.
  - apply Forall_cons in Hne as [Ht Hne].
    destruct (last t) as [prev|] eqn:El; [|apply last_None in El; contradiction].
    cbn [length seq fmap list_fmap for_each].
    set (w1 := mkWorld (source w) (S (draws w)) (pauses w)).
    set (v := next_acc rnd nm (source w (draws w)) prev).
    assert (Hbody : client_body rnd nm (Z.of_nat (length done)) (done ++ t :: todo, per, acc) w
                    = inr ((done ++ (t ++ [v]) :: todo, per ++ [v], acc + v), w1)).
    { unfold client_body.
      erewrite bind_ok by reflexivity. fold w1.
      erewrite bind_ok by (apply getitem_nat, list_lookup_middle; reflexivity).
      erewrite bind_ok by (apply getitem_last, El).
      erewrite bind_ok.
      2:{ apply append_at_nat. rewrite length_app. simpl. lia. }
      unfold ret. do 3 f_equal.
      replace (length done) with (length done + 0)%nat at 1 by lia.
      now rewrite alter_app_r. }
    erewrite bind_ok by exact Hbody.
    replace (done ++ (t ++ [v]) :: todo) with ((done ++ [t ++ [v]]) ++ todo)
      by now rewrite <- app_assoc.
    replace (S (length done)) with (length (done ++ [t ++ [v]]))
      by (rewrite length_app; simpl; lia).
    rewrite IH by assumption.
    rewrite round_tracks_cons, round_accs_cons.
    unfold last_acc at 1 2 3. rewrite El. simpl.
    fold v. rewrite <- !app_assoc. simpl.
    now rewrite Nat.add_succ_r.
Qed.

(** ** One round, and the initial draws *)

Lemma round_body_run nc nm rnd results ge ne tracks w :
  nc <> 0%Z -> tracks_ready nc tracks ->
  round_body nc nm rnd (results, ge, ne, tracks) w
  = inr (round_step nc nm rnd (results, ge, ne, tracks) w).
Proof.
  intros Hnc [Hlen Hne]. unfold round_body.
  rewrite range_from_0, <- Hlen.
  pose proof (client_loop_run rnd nm tracks [] [] 0 w Hne) as Hrun.
  simpl in Hrun. erewrite bind_ok by exact Hrun.
  unfold truediv. destruct (Z.eqb_spec nc 0) as [|_]; [contradiction|].
  reflexivity.
Qed.


Lemma seeds_run (a b : Q) (l : list Z) :
  forall w,
    list_comprehension (fun _ => x <- random_uniform a b ;; ret [x]) l w
    = inr ((fun i => [a + (b - a) * source w (draws w + i)%nat]) <$> seq 0 (length l),
           mkWorld (source w) (draws w + length l) (pauses w)).
Proof.
  induction l as [|c l IH]; intros w.
  - simpl. unfold ret. rewrite Nat.add_0_r. now destruct w.
  - cbn [list_comprehension length seq fmap list_fmap].
    erewrite bind_ok by reflexivity.
    erewrite bind_ok by apply IH.
    unfold ret. cbn [source draws pauses].
    rewrite Nat.add_0_r, Nat.add_succ_r. do 3 f_equal.
    rewrite <- fmap_S_seq, <- list_fmap_compose.
    apply list_fmap_ext. intros _ i _. simpl. now rewrite Nat.add_succ_r.
Qed.

(** An invariant of the loop over the rounds, indexed by the number of
    rounds done, holds at the end. *)
Lemma round_loop_inv nc nm (I : nat -> RoundLoop -> World -> Prop) :
  nc <> 0%Z ->
  (forall k st w, I k st w -> tracks_ready nc (snd st)) ->
  (forall k st w, I k st w ->
     I (S k) (fst (round_step nc nm (Z.of_nat (S k)) st w))
             (snd (round_step nc nm (Z.of_nat (S k)) st w))) ->
  forall m k st w,
    I k st w ->
    exists st' w',
      for_each (Z.of_nat <$> seq (S k) m) (round_body nc nm) st w = inr (st', w')
      /\ I (k + m)%nat st' w'.
Proof.
  intros Hnc Hready Hstep.
  induction m as [|m IH]; intros k st w HI.
  - exists st, w. rewrite Nat.add_0_r. now split.
  - cbn [seq fmap list_fmap for_each].
    destruct st as [[[results ge] ne] tracks].
    pose proof (round_body_run nc nm (Z.of_nat (S k)) results ge ne tracks w Hnc
                  (Hready _ _ _ HI)) as Hbody.
    specialize (Hstep _ _ _ HI).
    destruct (round_step nc nm (Z.of_nat (S k)) (results, ge, ne, tracks) w)
      as [st1 w1].
    erewrite bind_ok by exact Hbody.
    destruct (IH (S k) st1 w1 Hstep) as (st' & w' & Hrun & HI').
    exists st', w'. split; [exact Hrun|].
    now rewrite Nat.add_succ_r.
Qed.

(** ** The state after [k] rounds *)

Lemma eps_adv_after_S nm k :
  eps_adv_after nm (S k) = eps_adv_after nm k + eps_added_adv nm (Z.of_nat (S k)).
Proof.
  unfold eps_adv_after. now rewrite seq_S, !fmap_app, fold_left_app.
Qed.

Lemma eps_naive_after_S k :
  eps_naive_after (S k) = eps_naive_after k + eps_added_naive (Z.of_nat (S k)).
Proof.
  unfold eps_naive_after. now rewrite seq_S, !fmap_app, fold_left_app.
Qed.

Lemma rounds_inv_ready nc nm w0 k st w :
  rounds_inv nc nm w0 k st w -> tracks_ready nc (snd st).
Proof.
  destruct st as [[[results ge] ne] tracks]. intros [F _]. split.
  - apply F.
  - eapply Forall_impl; [apply F|]. intros [|] H; [discriminate|discriminate].
Qed.

Lemma last_acc_lookup (t : list Q) (k : nat) (prev : Q) :
  length t = S k -> t !! k = Some prev -> last_acc t = prev.
Proof.
  intros Hlen Hk. unfold last_acc. rewrite last_lookup, Hlen. simpl. now rewrite Hk.
Qed.

Lemma lookup_round_tracks rnd nm src d tracks c t' :
  round_tracks rnd nm src d tracks !! c = Some t' ->
  exists t, tracks !! c = Some t
            /\ t' = t ++ [next_acc rnd nm (src (d + c)%nat) (last_acc t)].
Proof. unfold round_tracks. now rewrite list_lookup_imap_Some. Qed.

Lemma lookup_round_accs rnd nm src d tracks c x :
  round_accs rnd nm src d tracks !! c = Some x ->
  exists t, tracks !! c = Some t
            /\ x = next_acc rnd nm (src (d + c)%nat) (last_acc t).
Proof. unfold round_accs. now rewrite list_lookup_imap_Some. Qed.

Lemma rounds_inv_step nc nm w0 k st w :
  rounds_inv nc nm w0 k st w ->
  rounds_inv nc nm w0 (S k)
    (fst (round_step nc nm (Z.of_nat (S k)) st w))
    (snd (round_step nc nm (Z.of_nat (S k)) st w)).
Proof.
  destruct st as [[[results ge] ne] tracks].
  intros (F & -> & -> & ->). destruct F as [Hr Hc Hlen Hrec Hseed Hnext].
  cbn [round_step fst snd source draws pauses rounds_inv].
  rewrite <- eps_adv_after_S, <- eps_naive_after_S.
  assert (Hlen' : forall c t, tracks !! c = Some t -> length t = S k)
    by (intros c t Ht; exact (Forall_lookup_1 _ _ _ _ Hlen Ht)).
  split; [|split; [reflexivity|split; [reflexivity|]]].
  - split.
    + rewrite length_app, Hr. simpl. lia.
    + unfold round_tracks. now rewrite length_imap.
    + apply Forall_lookup_2. intros c t' Ht'.
      apply lookup_round_tracks in Ht' as (t & Ht & ->).
      rewrite length_app, (Hlen' _ _ Ht). simpl. lia.
    + intros j rec Hj.
      destruct (Nat.lt_ge_cases j k) as [Hjk|Hjk].
      * rewrite lookup_app_l in Hj by lia.
        destruct (Hrec _ _ Hj) as (H1 & H2 & H3 & H4 & H5).
        repeat split; try assumption.
        apply Forall2_same_length_lookup in H5 as [H5 H6].
        apply Forall2_same_length_lookup_2.
        { unfold round_tracks. now rewrite length_imap. }
        intros c x t' Hx Ht'.
        apply lookup_round_tracks in Ht' as (t & Ht & ->).
        rewrite lookup_app_l by (rewrite (Hlen' _ _ Ht); lia).
        eapply H6; eauto.
      * rewrite lookup_app_r in Hj by lia.
        rewrite Hr in Hj.
        destruct (j - k)%nat as [|?] eqn:E; [|discriminate].
        assert (j = k) by lia. subst j.
        injection Hj as <-. cbn [round global_accuracy epsilon_advanced
                               epsilon_naive client_accuracies].
        repeat split.
        apply Forall2_same_length_lookup_2.
        { unfold round_tracks, round_accs. now rewrite !length_imap. }
        intros c x t' Hx Ht'.
        apply lookup_round_tracks in Ht' as (t & Ht & ->).
        apply lookup_round_accs in Hx as (t2 & Ht2 & ->).
        assert (t2 = t) by congruence. subst t2.
        apply list_lookup_middle. now rewrite (Hlen' _ _ Ht).
    + intros c t' Ht'.
      apply lookup_round_tracks in Ht' as (t & Ht & ->).
      rewrite lookup_app_l by (rewrite (Hlen' _ _ Ht); lia).
      now apply Hseed.
    + intros c t' j Ht' Hj.
      apply lookup_round_tracks in Ht' as (t & Ht & ->).
      pose proof (Hlen' _ _ Ht) as Hl.
      destruct (Nat.lt_ge_cases j k) as [Hjk|Hjk].
      * destruct (Hnext _ _ _ Ht Hjk) as (prev & Hp & Hn).
        exists prev. rewrite !lookup_app_l by lia. now split.
      * assert (j = k) by lia. subst j.
        destruct (lookup_lt_is_Some_2 t k) as [prev Hp]; [lia|].
        exists prev. rewrite lookup_app_l by lia. split; [exact Hp|].
        rewrite (last_acc_lookup _ _ _ Hl Hp).
        now apply list_lookup_middle.
  - f_equal. rewrite Hc. lia.
Qed.

(** ** A whole run *)

Lemma length_range_0 (n : Z) : length (range 0 n) = Z.to_nat n.
Proof. now rewrite range_from_0, length_fmap, length_seq. Qed.

Lemma rounds_inv_init nc nm w0 :
  rounds_inv nc nm w0 0
    ([], 0, 0, (fun i => [seed_of w0 i]) <$> seq 0 (Z.to_nat nc))
    (mkWorld (source w0) (draws w0 + Z.to_nat nc) (pauses w0)).
Proof.
  split; [|split; [reflexivity|split; [reflexivity|]]].
  - split.
    + reflexivity.
    + now rewrite length_fmap, length_seq.
    + apply Forall_fmap, Forall_forall. now intros.
    + intros j rec Hj. discriminate.
    + intros c t Hc. apply list_lookup_fmap_Some in Hc as (i & -> & Hi).
      apply lookup_seq in Hi as [-> _]. reflexivity.
    + intros c t j _ Hj. lia.
  - simpl. now rewrite Nat.add_0_r.
Qed.

Lemma simulate_run nc nm nr w0 :
  nc <> 0%Z ->
  exists results tracks,
    simulate_federated_training nc nm nr w0
    = inr ((results, tracks), final_world nc nr w0)
    /\ run_facts nc nm w0 (Z.to_nat nr) results tracks.
Proof.
  intros Hnc. unfold simulate_federated_training.
  erewrite bind_ok by apply seeds_run.
  rewrite length_range_0, range_from_1.
  destruct (round_loop_inv nc nm (rounds_inv nc nm w0) Hnc
              (rounds_inv_ready nc nm w0) (rounds_inv_step nc nm w0)
              (Z.to_nat nr) 0%nat _ _ (rounds_inv_init nc nm w0))
    as ([[[results ge] ne] tracks] & w' & Hrun & F & _ & _ & ->).
  erewrite bind_ok by exact Hrun.
  exists results, tracks. split; [reflexivity|exact F].
Qed.



(** ** Sums, means and bounds *)

Lemma fold_left_Qplus (l : list Q) :
  forall a, fold_left Qplus l a == a + Qsum l.
Proof.
  induction l as [|x l IH]; intros a; simpl.
  - ring.
  - rewrite IH. ring.
Qed.

Lemma Qsum_bounds (l : list Q) (lo hi : Q) :
  Forall (fun x => lo <= x <= hi) l ->
  lo * inject_Z (Z.of_nat (length l)) <= Qsum l
  /\ Qsum l <= hi * inject_Z (Z.of_nat (length l)).
Proof.
  induction 1 as [|x l [Hlo Hhi] _ [IHlo IHhi]].
  - change (inject_Z (Z.of_nat (length []))) with 0.
    change (Qsum []) with 0. lra.
  - cbn [length Qsum fold_right]. fold (Qsum l).
    rewrite Nat2Z.inj_succ, <- Z.add_1_r, inject_Z_plus.
    change (inject_Z 1) with 1. split; lra.
Qed.

Lemma inject_Z_pos (n : Z) : (1 <= n)%Z -> 0 < inject_Z n.
Proof.
  intros H. apply Qlt_le_trans with (inject_Z 1); [reflexivity|].
  now rewrite <- Zle_Qle.
Qed.

Lemma mean_bounds (l : list Q) (lo hi : Q) :
  l <> [] -> Forall (fun x => lo <= x <= hi) l -> lo <= mean l <= hi.
Proof.
  intros Hne Hall. unfold mean.
  assert (Hn : 0 < inject_Z (Z.of_nat (length l))).
  { apply inject_Z_pos. destruct l; [contradiction|]. simpl. lia. }
  destruct (Qsum_bounds l lo hi Hall) as [Hlo Hhi]. split.
  - now apply Qle_shift_div_l.
  - now apply Qle_shift_div_r.
Qed.

Lemma eps_added_adv_pos nm rnd : 0 < eps_added_adv nm rnd.
Proof.
  unfold eps_added_adv.
  pose proof (Q.le_max_r (0.2 + 0.1 * inject_Z rnd - 0.05 * nm) 0.1). lra.
Qed.

Lemma eps_added_naive_pos rnd : (1 <= rnd)%Z -> 0 < eps_added_naive rnd.
Proof.
  intros H. apply inject_Z_pos in H. unfold eps_added_naive. lra.
Qed.

Lemma eps_adv_after_lt nm (i j : nat) :
  (i < j)%nat -> eps_adv_after nm i < eps_adv_after nm j.
Proof.
  induction j as [|j IH]; intros H; [lia|].
  rewrite eps_adv_after_S.
  pose proof (eps_added_adv_pos nm (Z.of_nat (S j))).
  destruct (Nat.eq_dec i j) as [->|]; [lra|].
  assert (eps_adv_after nm i < eps_adv_after nm j) by (apply IH; lia). lra.
Qed.

Lemma eps_naive_after_lt (i j : nat) :
  (i < j)%nat -> eps_naive_after i < eps_naive_after j.
Proof.
  induction j as [|j IH]; intros H; [lia|].
  rewrite eps_naive_after_S.
  assert (0 < eps_added_naive (Z.of_nat (S j))) by (apply eps_added_naive_pos; lia).
  destruct (Nat.eq_dec i j) as [->|]; [lra|].
  assert (eps_naive_after i < eps_naive_after j) by (apply IH; lia). lra.
Qed.

(** A value a draw in [[0, 1]] turns into lies between the two ends. *)
Lemma uniform_range (a b raw : Q) :
  a <= b -> 0 <= raw <= 1 -> a <= a + (b - a) * raw <= b.
Proof. intros Hab [H0 H1]. split; nra. Qed.

Lemma seed_range (w0 : World) (c : nat) :
  (forall i, 0 <= source w0 i <= 1) -> 0.4 <= seed_of w0 c <= 0.6.
Proof. intros H. apply uniform_range; [lra|apply H]. Qed.

Lemma next_acc_le_1 rnd nm raw prev : next_acc rnd nm raw prev <= 1.
Proof.
  unfold next_acc. eapply Qle_trans; [apply Q.le_min_r|]. discriminate.
Qed.

Lemma floor_after_pos j : 0 < floor_after j.
Proof. destruct j as [|[|[|j]]]; reflexivity. Qed.

Lemma next_acc_floor (j : nat) (nm raw prev : Q) :
  nm <= 3 -> 0 <= raw -> floor_after j <= prev ->
  floor_after (S j) <= next_acc (Z.of_nat (S j)) nm raw prev.
Proof.
  intros Hnm Hraw Hprev. unfold next_acc.
  set (x := prev + _).
  assert (Hx : floor_after (S j) <= x).
  { subst x. destruct j as [|[|[|j]]].
    - change (inject_Z (Z.of_nat 1)) with 1. simpl in *. lra.
    - change (inject_Z (Z.of_nat 2)) with 2. simpl in *. lra.
    - change (inject_Z (Z.of_nat 3)) with 3. simpl in *. lra.
    - assert (4 <= inject_Z (Z.of_nat (S (S (S (S j)))))).
      { change 4 with (inject_Z 4). rewrite <- Zle_Qle. lia. }
      change (floor_after (S (S (S (S j))))) with 0.355.
      change (floor_after (S (S (S j)))) with 0.355 in Hprev. lra. }
  assert (H1 : floor_after (S j) <= 1.0) by (destruct j as [|[|[|j]]]; discriminate).
  destruct (Q.min_spec x 1.0) as [[_ ->]|[_ ->]]; assumption.
Qed.

Lemma track_bounds nc nm w0 k results tracks c t :
  run_facts nc nm w0 k results tracks ->
  (forall i, 0 <= source w0 i <= 1) ->
  tracks !! c = Some t ->
  forall j x, t !! j = Some x -> x <= 1 /\ (nm <= 3 -> floor_after j <= x).
Proof.
  intros F Hsrc Ht.
  assert (Hlen : length t = S k) by exact (Forall_lookup_1 _ _ _ _ (rf_track_len _ _ _ _ _ _ F) Ht).
  induction j as [|j IH]; intros x Hx.
  - rewrite (rf_seed _ _ _ _ _ _ F _ _ Ht) in Hx. injection Hx as <-.
    pose proof (seed_range w0 c Hsrc). simpl. split; [|intros _]; lra.
  - assert (Hj : (j < k)%nat) by (apply lookup_lt_Some in Hx; lia).
    destruct (rf_next _ _ _ _ _ _ F _ _ _ Ht Hj) as (prev & Hp & Hn).
    rewrite Hn in Hx. injection Hx as <-.
    destruct (IH _ Hp) as [_ IHlo]. split.
    + apply next_acc_le_1.
    + intros Hnm. apply next_acc_floor; auto. apply Hsrc.
Qed.

Lemma record_lookup (results : list RoundRecord) (k : nat) (r : Z) :
  length results = k -> (1 <= r <= Z.of_nat k)%Z ->
  exists rec, results !! Z.to_nat (r - 1) = Some rec
              /\ S (Z.to_nat (r - 1)) = Z.to_nat r.
Proof.
  intros Hlen Hr.
  destruct (lookup_lt_is_Some_2 results (Z.to_nat (r - 1))) as [rec Hrec]; [lia|].
  exists rec. split; [exact Hrec|lia].
Qed.

Lemma record_mean nc nm w0 k results tracks j rec :
  run_facts nc nm w0 k results tracks -> (1 <= nc)%Z ->
  results !! j = Some rec ->
  length (client_accuracies rec) = Z.to_nat nc
  /\ global_accuracy rec == mean (client_accuracies rec).
Proof.
  intros F Hnc Hrec.
  destruct (rf_record _ _ _ _ _ _ F _ _ Hrec) as (_ & _ & _ & Hga & Hper).
  apply Forall2_length in Hper. rewrite (rf_clients _ _ _ _ _ _ F) in Hper.
  split; [exact Hper|].
  rewrite Hga, fold_left_Qplus. unfold mean.
  rewrite Hper, Z2Nat.id by lia. now rewrite Qplus_0_l.
Qed.

(** * The claims *)

(** The scenario of one client and one round with noise multiplier 1,
    every [random()] giving 0.5. *)
Example one_client_one_round :
  exists rec tracks w',
    simulate_federated_training 1 1 1 (const_world 0.5) = inr (([rec], tracks), w')
    /\ round rec = 1%Z
    /\ global_accuracy rec == 0.5 + (0.02 + 0.005 - 0.01)
    /\ epsilon_advanced rec == 0.25
    /\ epsilon_naive rec == 0.7.
Proof.
  do 3 eexists. split; [vm_compute; reflexivity|].
  split; [reflexivity|]. split; [reflexivity|]. split; reflexivity.
Qed.

(** C6. For [client_count >= 1] and [round_count >= 1] the run returns
    exactly [round_count] records, whose [round] fields are
    [1 .. round_count] in increasing order, and exactly [client_count]
    tracks, each of length [round_count + 1]. *)
Theorem result_shape (nc : Z) (nm : Q) (nr : Z) (w : World) :
  (1 <= nc)%Z -> (1 <= nr)%Z ->
  exists results tracks w',
    simulate_federated_training nc nm nr w = inr ((results, tracks), w')
    /\ Z.of_nat (length results) = nr
    /\ round <$> results = range 1 (nr + 1)
    /\ Z.of_nat (length tracks) = nc
    /\ Forall (fun t => Z.of_nat (length t) = (nr + 1)%Z) tracks.
Proof.
  intros Hnc Hnr.
  destruct (simulate_run nc nm nr w) as (results & tracks & Hrun & F); [lia|].
  exists results, tracks, (final_world nc nr w).
  destruct F as [Hr Hc Hlen Hrec _ _].
  split; [exact Hrun|]. split; [lia|]. split; [|split; [lia|]].
  - rewrite range_from_1. apply list_eq. intros i.
    rewrite !list_lookup_fmap.
    destruct (results !! i) as [rec|] eqn:E.
    + destruct (Hrec _ _ E) as [Hround _].
      rewrite lookup_seq_lt by (apply lookup_lt_Some in E; lia).
      simpl. now rewrite Hround.
    + apply lookup_ge_None in E.
      rewrite (proj2 (lookup_ge_None _ _)) by (rewrite length_seq; lia).
      reflexivity.
  - eapply Forall_impl; [exact Hlen|]. intros t Ht. cbv beta in Ht. lia.
Qed.

Lemma result_shape_witness :
  (1 <= 2)%Z /\ (1 <= 3)%Z /\
  exists results tracks w',
    simulate_federated_training 2 1 3 (const_world 0.5) = inr ((results, tracks), w')
    /\ Z.of_nat (length results) = 3%Z
    /\ round <$> results = range 1 (3 + 1)
    /\ Z.of_nat (length tracks) = 2%Z
    /\ Forall (fun t => Z.of_nat (length t) = (3 + 1)%Z) tracks.
Proof.
  split; [lia|]. split; [lia|].
  apply (result_shape 2 1 3 (const_world 0.5)); lia.
Defined.

(** C1. For [client_count >= 1] and [round_count >= 1], the record of
    every round [r] in [1 .. round_count] holds [client_count] client
    accuracies, and its [global_accuracy] is their arithmetic mean. *)
Theorem global_accuracy_is_mean (nc : Z) (nm : Q) (nr : Z) (w : World) :
  (1 <= nc)%Z -> (1 <= nr)%Z ->
  exists results tracks w',
    simulate_federated_training nc nm nr w = inr ((results, tracks), w')
    /\ forall r, (1 <= r <= nr)%Z ->
         exists rec,
           results !! Z.to_nat (r - 1) = Some rec
           /\ round rec = r
           /\ Z.of_nat (length (client_accuracies rec)) = nc
           /\ global_accuracy rec == mean (client_accuracies rec).
Proof.
  intros Hnc Hnr.
  destruct (simulate_run nc nm nr w) as (results & tracks & Hrun & F); [lia|].
  exists results, tracks, (final_world nc nr w). split; [exact Hrun|].
  intros r Hr.
  destruct (record_lookup results (Z.to_nat nr) r) as (rec & Hrec & Hj);
    [apply F|lia|].
  exists rec. split; [exact Hrec|].
  destruct (rf_record _ _ _ _ _ _ F _ _ Hrec) as (Hround & _).
  split; [lia|].
  destruct (record_mean _ _ _ _ _ _ _ _ F Hnc Hrec) as [Hlen Hmean].
  split; [lia|exact Hmean].
Qed.

Lemma global_accuracy_is_mean_witness :
  (1 <= 2)%Z /\ (1 <= 3)%Z /\
  exists results tracks w',
    simulate_federated_training 2 1 3 (const_world 0.5) = inr ((results, tracks), w')
    /\ forall r, (1 <= r <= 3)%Z ->
         exists rec,
           results !! Z.to_nat (r - 1) = Some rec
           /\ round rec = r
           /\ Z.of_nat (length (client_accuracies rec)) = 2%Z
           /\ global_accuracy rec == mean (client_accuracies rec).
Proof.
  split; [lia|]. split; [lia|].
  apply (global_accuracy_is_mean 2 1 3 (const_world 0.5)); lia.
Defined.

(** C4. In the record of every round [r] in [1 .. round_count],
    [epsilon_advanced] is the sum over [i = 1 .. r] of
    [max(0.2 + 0.1*i - 0.05*noise_multiplier, 0.1)] and [epsilon_naive] is
    the sum over [i = 1 .. r] of [0.5 + 0.2*i]. *)
Theorem epsilon_sums (nc : Z) (nm : Q) (nr : Z) (w : World) :
  nc <> 0%Z ->
  exists results tracks w',
    simulate_federated_training nc nm nr w = inr ((results, tracks), w')
    /\ forall r, (1 <= r <= nr)%Z ->
         exists rec,
           results !! Z.to_nat (r - 1) = Some rec
           /\ round rec = r
           /\ epsilon_advanced rec
              == Qsum ((fun i => Qmax (0.2 + 0.1 * inject_Z i - 0.05 * nm) 0.1)
                         <$> range 1 (r + 1))
           /\ epsilon_naive rec
              == Qsum ((fun i => 0.5 + 0.2 * inject_Z i) <$> range 1 (r + 1)).
Proof.
  intros Hnc.
  destruct (simulate_run nc nm nr w Hnc) as (results & tracks & Hrun & F).
  exists results, tracks, (final_world nc nr w). split; [exact Hrun|].
  intros r Hr.
  destruct (record_lookup results (Z.to_nat nr) r) as (rec & Hrec & Hj);
    [apply F|lia|].
  exists rec. split; [exact Hrec|].
  destruct (rf_record _ _ _ _ _ _ F _ _ Hrec) as (Hround & Hadv & Hnaive & _).
  split; [lia|].
  rewrite Hadv, Hnaive, Hj, range_from_1.
  unfold eps_adv_after, eps_naive_after.
  rewrite !fold_left_Qplus, !Qplus_0_l. split; reflexivity.
Qed.

Lemma epsilon_sums_witness :
  2%Z <> 0%Z /\
  exists results tracks w',
    simulate_federated_training 2 1 3 (const_world 0.5) = inr ((results, tracks), w')
    /\ forall r, (1 <= r <= 3)%Z ->
         exists rec,
           results !! Z.to_nat (r - 1) = Some rec
           /\ round rec = r
           /\ epsilon_advanced rec
              == Qsum ((fun i => Qmax (0.2 + 0.1 * inject_Z i - 0.05 * 1) 0.1)
                         <$> range 1 (r + 1))
           /\ epsilon_naive rec
              == Qsum ((fun i => 0.5 + 0.2 * inject_Z i) <$> range 1 (r + 1)).
Proof.
  split; [lia|]. apply (epsilon_sums 2 1 3 (const_world 0.5)). lia.
Defined.

(** C5. For [round_count >= 1] and [noise_multiplier >= 0], the
    [epsilon_advanced] values and the [epsilon_naive] values of the
    returned records are each strictly increasing in the round index. *)
Theorem epsilons_strictly_increase (nc : Z) (nm : Q) (nr : Z) (w : World) :
  nc <> 0%Z -> (1 <= nr)%Z -> 0 <= nm ->
  exists results tracks w',
    simulate_federated_training nc nm nr w = inr ((results, tracks), w')
    /\ forall (i j : nat) (a b : RoundRecord),
         results !! i = Some a -> results !! j = Some b -> (i < j)%nat ->
         (round a < round b)%Z
         /\ epsilon_advanced a < epsilon_advanced b
         /\ epsilon_naive a < epsilon_naive b.
Proof.
  intros Hnc Hnr _.
  destruct (simulate_run nc nm nr w Hnc) as (results & tracks & Hrun & F).
  exists results, tracks, (final_world nc nr w). split; [exact Hrun|].
  intros i j a b Ha Hb Hij.
  destruct (rf_record _ _ _ _ _ _ F _ _ Ha) as (-> & -> & -> & _).
  destruct (rf_record _ _ _ _ _ _ F _ _ Hb) as (-> & -> & -> & _).
  split; [lia|]. split.
  - apply eps_adv_after_lt. lia.
  - apply eps_naive_after_lt. lia.
Qed.

Lemma epsilons_strictly_increase_witness :
  2%Z <> 0%Z /\ (1 <= 3)%Z /\ 0 <= 1 /\
  exists results tracks w',
    simulate_federated_training 2 1 3 (const_world 0.5) = inr ((results, tracks), w')
    /\ forall (i j : nat) (a b : RoundRecord),
         results !! i = Some a -> results !! j = Some b -> (i < j)%nat ->
         (round a < round b)%Z
         /\ epsilon_advanced a < epsilon_advanced b
         /\ epsilon_naive a < epsilon_naive b.
Proof.
  split; [lia|]. split; [lia|]. split; [discriminate|].
  apply (epsilons_strictly_increase 2 1 3 (const_world 0.5)); [lia|lia|discriminate].
Defined.

(** C7. For [client_count >= 1], [round_count >= 1],
    [0 <= noise_multiplier <= 3] and draws within their intervals, the
    [global_accuracy] of every round lies in [[0, 1]]. *)
Theorem global_accuracy_in_unit_interval (nc : Z) (nm : Q) (nr : Z) (w : World) :
  (1 <= nc)%Z -> (1 <= nr)%Z -> 0 <= nm <= 3 ->
  (forall i, 0 <= source w i <= 1) ->
  exists results tracks w',
    simulate_federated_training nc nm nr w = inr ((results, tracks), w')
    /\ Forall (fun rec => 0 <= global_accuracy rec <= 1) results.
Proof.
  intros Hnc Hnr [_ Hnm] Hsrc.
  destruct (simulate_run nc nm nr w) as (results & tracks & Hrun & F); [lia|].
  exists results, tracks, (final_world nc nr w). split; [exact Hrun|].
  apply Forall_lookup_2. intros j rec Hrec.
  destruct (record_mean _ _ _ _ _ _ _ _ F Hnc Hrec) as [Hlen ->].
  destruct (rf_record _ _ _ _ _ _ F _ _ Hrec) as (_ & _ & _ & _ & Hper).
  apply mean_bounds.
  - intros E. rewrite E in Hlen. simpl in Hlen. lia.
  - apply Forall_lookup_2. intros c x Hx.
    destruct (Forall2_lookup_l _ _ _ _ _ Hper Hx) as (t & Ht & Htx).
    destruct (track_bounds _ _ _ _ _ _ _ _ F Hsrc Ht _ _ Htx) as [H1 H0].
    specialize (H0 Hnm). pose proof (floor_after_pos (S j)). split; lra.
Qed.

Lemma global_accuracy_in_unit_interval_witness :
  (1 <= 2)%Z /\ (1 <= 3)%Z /\ 0 <= 1 <= 3 /\
  (forall i, 0 <= source (const_world 0.5) i <= 1) /\
  exists results tracks w',
    simulate_federated_training 2 1 3 (const_world 0.5) = inr ((results, tracks), w')
    /\ Forall (fun rec => 0 <= global_accuracy rec <= 1) results.
Proof.
  assert (Hsrc : forall i, 0 <= source (const_world 0.5) i <= 1)
    by (intros i; split; vm_compute; discriminate).
  assert (Hnm : 0 <= 1 <= 3) by (split; vm_compute; discriminate).
  split; [lia|]. split; [lia|]. split; [exact Hnm|]. split; [exact Hsrc|].
  apply (global_accuracy_in_unit_interval 2 1 3 (const_world 0.5)); [lia|lia|exact Hnm|exact Hsrc].
Defined.

(** C10. For [client_count >= 1] and [round_count = 0] the run does not
    fail: it returns no record and [client_count] tracks, each holding
    only its seed, which lies in [[0.4, 0.6]]. *)
Theorem no_rounds (nc : Z) (nm : Q) (w : World) :
  (1 <= nc)%Z ->
  (forall i, 0 <= source w i <= 1) ->
  exists tracks w',
    simulate_federated_training nc nm 0 w = inr (([], tracks), w')
    /\ Z.of_nat (length tracks) = nc
    /\ Forall (fun t => exists s, t = [s] /\ 0.4 <= s <= 0.6) tracks.
Proof.
  intros Hnc Hsrc.
  destruct (simulate_run nc nm 0 w) as (results & tracks & Hrun & F); [lia|].
  exists tracks, (final_world nc 0 w).
  pose proof (rf_rounds _ _ _ _ _ _ F) as Hr. apply nil_length_inv in Hr. subst results.
  split; [exact Hrun|]. split; [rewrite (rf_clients _ _ _ _ _ _ F); lia|].
  apply Forall_lookup_2. intros c t Ht.
  pose proof (Forall_lookup_1 _ _ _ _ (rf_track_len _ _ _ _ _ _ F) Ht) as Hlen.
  pose proof (rf_seed _ _ _ _ _ _ F _ _ Ht) as Hseed.
  exists (seed_of w c). split; [|now apply seed_range].
  destruct t as [|x [|y t]]; try discriminate.
  now injection Hseed as ->.
Qed.

Lemma no_rounds_witness :
  (1 <= 2)%Z /\
  (forall i, 0 <= source (const_world 0.5) i <= 1) /\
  exists tracks w',
    simulate_federated_training 2 1 0 (const_world 0.5) = inr (([], tracks), w')
    /\ Z.of_nat (length tracks) = 2%Z
    /\ Forall (fun t => exists s, t = [s] /\ 0.4 <= s <= 0.6) tracks.
Proof.
  assert (Hsrc : forall i, 0 <= source (const_world 0.5) i <= 1)
    by (intros i; split; vm_compute; discriminate).
  split; [lia|]. split; [exact Hsrc|].
  apply (no_rounds 2 1 (const_world 0.5)); [lia|exact Hsrc].
Defined.

(** C3. For every client [c] and round [r] in [1 .. round_count], the
    value appended to the track of [c] is
    [min(previous + u + 0.005*r - 0.01*noise_multiplier, 1.0)], where [u]
    is the draw made from [[0.01, 0.03]] for that client in that round;
    nothing clamps it from below, and some run with draws within their
    intervals does give a value below 0. *)
Theorem track_update (nc : Z) (nm : Q) (nr : Z) (w : World) :
  (1 <= nc)%Z -> (1 <= nr)%Z ->
  (exists results tracks w',
     simulate_federated_training nc nm nr w = inr ((results, tracks), w')
     /\ forall c r, (0 <= c < nc)%Z -> (1 <= r <= nr)%Z ->
          exists t prev new,
            tracks !! Z.to_nat c = Some t
            /\ t !! Z.to_nat (r - 1) = Some prev
            /\ t !! Z.to_nat r = Some new
            /\ let u := uniform_draw 0.01 0.03 w
                          (draw_index w (Z.to_nat nc) (Z.to_nat (r - 1)) (Z.to_nat c)) in
               new == Qmin (prev + u + 0.005 * inject_Z r - 0.01 * nm) 1.0)
  /\ (exists nm' w0 results tracks w' t x,
        (forall i, 0 <= source w0 i <= 1)
        /\ simulate_federated_training nc nm' nr w0 = inr ((results, tracks), w')
        /\ tracks !! 0%nat = Some t /\ t !! 1%nat = Some x /\ x < 0).
Proof.
  intros Hnc Hnr. split.
  - destruct (simulate_run nc nm nr w) as (results & tracks & Hrun & F); [lia|].
    exists results, tracks, (final_world nc nr w). split; [exact Hrun|].
    intros c r Hc Hr.
    destruct (lookup_lt_is_Some_2 tracks (Z.to_nat c)) as [t Ht].
    { rewrite (rf_clients _ _ _ _ _ _ F). lia. }
    destruct (rf_next _ _ _ _ _ _ F _ _ (Z.to_nat (r - 1)) Ht) as (prev & Hp & Hn);
      [lia|].
    replace (S (Z.to_nat (r - 1))) with (Z.to_nat r) in Hn by lia.
    rewrite Z2Nat.id in Hn by lia.
    exists t, prev. eexists. split; [exact Ht|]. split; [exact Hp|].
    split; [exact Hn|].
    cbv zeta. unfold next_acc, uniform_draw.
    apply Q.min_compat; [ring|reflexivity].
  - destruct (simulate_run nc 100 nr (const_world 0)) as (results & tracks & Hrun & F);
      [lia|].
    assert (Hsrc : forall i, 0 <= source (const_world 0) i <= 1)
      by (intros i; split; discriminate).
    destruct (lookup_lt_is_Some_2 tracks 0) as [t Ht].
    { rewrite (rf_clients _ _ _ _ _ _ F). lia. }
    destruct (rf_next _ _ _ _ _ _ F _ _ 0%nat Ht) as (prev & Hp & Hn); [lia|].
    assert (Hle : prev <= 0.6).
    { rewrite (rf_seed _ _ _ _ _ _ F _ _ Ht) in Hp. injection Hp as <-.
      now apply seed_range. }
    exists 100, (const_world 0), results, tracks. eexists. exists t. eexists.
    split; [exact Hsrc|]. split; [exact Hrun|]. split; [exact Ht|].
    split; [exact Hn|].
    unfold next_acc. eapply Qle_lt_trans; [apply Q.le_min_l|].
    change (inject_Z (Z.of_nat 1)) with 1.
    change (source (const_world 0) _) with 0. lra.
Qed.

Lemma track_update_witness :
  (1 <= 2)%Z /\ (1 <= 3)%Z /\
  exists results tracks w',
    simulate_federated_training 2 1 3 (const_world 0.5) = inr ((results, tracks), w')
    /\ forall c r, (0 <= c < 2)%Z -> (1 <= r <= 3)%Z ->
         exists t prev new,
           tracks !! Z.to_nat c = Some t
           /\ t !! Z.to_nat (r - 1) = Some prev
           /\ t !! Z.to_nat r = Some new
           /\ let u := uniform_draw 0.01 0.03 (const_world 0.5)
                         (draw_index (const_world 0.5) (Z.to_nat 2)
                                     (Z.to_nat (r - 1)) (Z.to_nat c)) in
              new == Qmin (prev + u + 0.005 * inject_Z r - 0.01 * 1) 1.0.
Proof.
  split; [lia|]. split; [lia|].
  apply (track_update 2 1 3 (const_world 0.5)); lia.
Defined.

(** C8, as stated, fails: with [noise_multiplier = 100] the first value
    appended to the track of the only client is negative. *)
Lemma track_entry_below_zero :
  0 < 100
  /\ (forall i, 0 <= source (const_world 0.5) i <= 1)
  /\ exists results tracks w' t x,
       simulate_federated_training 1 100 1 (const_world 0.5)
       = inr ((results, tracks), w')
       /\ tracks !! 0%nat = Some t /\ t !! 1%nat = Some x
       /\ ~ (0 <= x <= 1).
Proof.
  split; [reflexivity|].
  split; [intros i; split; vm_compute; discriminate|].
  do 5 eexists. split; [vm_compute; reflexivity|].
  split; [reflexivity|]. split; [reflexivity|].
  intros [H _]. vm_compute in H. now apply H.
Qed.

(** C8, amended. For every configuration that returns and draws within
    their intervals, every track starts with a seed in [[0.4, 0.6]] and
    none of its entries exceeds 1; when moreover
    [noise_multiplier <= 3], none of its entries is below 0. *)
Theorem track_entries_bounded (nc : Z) (nm : Q) (nr : Z) (w : World) :
  nc <> 0%Z ->
  (forall i, 0 <= source w i <= 1) ->
  exists results tracks w',
    simulate_federated_training nc nm nr w = inr ((results, tracks), w')
    /\ Forall (fun t =>
                 (exists s, t !! 0%nat = Some s /\ 0.4 <= s <= 0.6)
                 /\ Forall (fun x => x <= 1) t
                 /\ (nm <= 3 -> Forall (fun x => 0 <= x <= 1) t)) tracks.
Proof.
  intros Hnc Hsrc.
  destruct (simulate_run nc nm nr w Hnc) as (results & tracks & Hrun & F).
  exists results, tracks, (final_world nc nr w). split; [exact Hrun|].
  apply Forall_lookup_2. intros c t Ht.
  pose proof (track_bounds _ _ _ _ _ _ _ _ F Hsrc Ht) as Hb.
  split; [|split].
  - exists (seed_of w c). split; [|now apply seed_range].
    exact (rf_seed _ _ _ _ _ _ F _ _ Ht).
  - apply Forall_lookup_2. intros j x Hx. now apply (Hb j x).
  - intros Hnm. apply Forall_lookup_2. intros j x Hx.
    destruct (Hb j x Hx) as [H1 H0]. specialize (H0 Hnm).
    pose proof (floor_after_pos j). split; lra.
Qed.

Lemma track_entries_bounded_witness :
  2%Z <> 0%Z /\
  (forall i, 0 <= source (const_world 0.5) i <= 1) /\
  exists results tracks w',
    simulate_federated_training 2 1 3 (const_world 0.5) = inr ((results, tracks), w')
    /\ Forall (fun t =>
                 (exists s, t !! 0%nat = Some s /\ 0.4 <= s <= 0.6)
                 /\ Forall (fun x => x <= 1) t
                 /\ (1 <= 3 -> Forall (fun x => 0 <= x <= 1) t)) tracks.
Proof.
  assert (Hsrc : forall i, 0 <= source (const_world 0.5) i <= 1)
    by (intros i; split; vm_compute; discriminate).
  split; [lia|]. split; [exact Hsrc|].
  apply (track_entries_bounded 2 1 3 (const_world 0.5)); [lia|exact Hsrc].
Defined.

(** C9, as stated, fails: with one client and one round the run makes 2
    calls to [random.uniform], not [2 * 1 + 1 * 1], and it also pauses. *)
Lemma two_draws_for_one_client_one_round :
  exists res w',
    simulate_federated_training 1 1 1 (const_world 0.5) = inr (res, w')
    /\ draws w' = 2%nat
    /\ Z.of_nat (draws w') <> (2 * 1 + 1 * 1)%Z
    /\ pauses w' = [0.5].
Proof.
  do 2 eexists. split; [vm_compute; reflexivity|].
  split; [reflexivity|]. split; [discriminate|reflexivity].
Qed.

(** C9, amended. For [client_count >= 1] and [round_count >= 1], a run
    makes exactly [client_count + round_count * client_count] calls to
    [random.uniform], and its only other effect is one call
    [time.sleep(0.5)] per round. *)
Theorem draws_and_pauses (nc : Z) (nm : Q) (nr : Z) (w : World) :
  (1 <= nc)%Z -> (1 <= nr)%Z ->
  exists res w',
    simulate_federated_training nc nm nr w = inr (res, w')
    /\ Z.of_nat (draws w') = (Z.of_nat (draws w) + (nc + nr * nc))%Z
    /\ pauses w' = replicate (Z.to_nat nr) 0.5 ++ pauses w
    /\ source w' = source w.
Proof.
  intros Hnc Hnr.
  destruct (simulate_run nc nm nr w) as (results & tracks & Hrun & _); [lia|].
  exists (results, tracks), (final_world nc nr w). split; [exact Hrun|].
  split; [|split; reflexivity].
  cbn [final_world draws]. nia.
Qed.

Lemma draws_and_pauses_witness :
  (1 <= 2)%Z /\ (1 <= 3)%Z /\
  exists res w',
    simulate_federated_training 2 1 3 (const_world 0.5) = inr (res, w')
    /\ Z.of_nat (draws w')
       = (Z.of_nat (draws (const_world 0.5)) + (2 + 3 * 2))%Z
    /\ pauses w' = replicate (Z.to_nat 3) 0.5 ++ pauses (const_world 0.5)
    /\ source w' = source (const_world 0.5).
Proof.
  split; [lia|]. split; [lia|].
  apply (draws_and_pauses 2 1 3 (const_world 0.5)); lia.
Defined.




(** * Further properties of the simulator *)

Lemma for_each_app {A S} (body : A -> S -> M S) (l1 l2 : list A) :
  forall s w,
    for_each (l1 ++ l2) body s w
    = (s' <- for_each l1 body s ;; for_each l2 body s') w.
Proof.
  induction l1 as [|x l1 IH]; intros s w; [reflexivity|].
  cbn [app for_each]. unfold bind.
  destruct (body x s w) as [e|[s1 w1]]; [reflexivity|].
  rewrite IH. reflexivity.
Qed.

Lemma Qsum_upper (l : list Q) (hi : Q) :
  Forall (fun x => x <= hi) l -> Qsum l <= hi * inject_Z (Z.of_nat (length l)).
Proof.
  induction 1 as [|x l Hhi _ IH].
  - change (inject_Z (Z.of_nat (length []))) with 0.
    change (Qsum []) with 0. lra.
  - cbn [length Qsum fold_right]. fold (Qsum l).
    rewrite Nat2Z.inj_succ, <- Z.add_1_r, inject_Z_plus.
    change (inject_Z 1) with 1. lra.
Qed.

Lemma inject_Z_S (k : nat) :
  inject_Z (Z.of_nat (S k)) == inject_Z (Z.of_nat k) + 1.
Proof. now rewrite Nat2Z.inj_succ, <- Z.add_1_r, inject_Z_plus. Qed.

Lemma eps_naive_after_closed (k : nat) :
  eps_naive_after k
  == 0.6 * inject_Z (Z.of_nat k)
     + 0.1 * (inject_Z (Z.of_nat k) * inject_Z (Z.of_nat k)).
Proof.
  induction k as [|k IH]; [reflexivity|].
  rewrite eps_naive_after_S, IH. unfold eps_added_naive.
  rewrite inject_Z_S. ring.
Qed.

Lemma eps_adv_after_closed nm (k : nat) :
  nm <= 4 ->
  eps_adv_after nm k
  == (0.25 - 0.05 * nm) * inject_Z (Z.of_nat k)
     + 0.05 * (inject_Z (Z.of_nat k) * inject_Z (Z.of_nat k)).
Proof.
  intros Hnm. induction k as [|k IH].
  - change (inject_Z (Z.of_nat 0)) with 0. change (eps_adv_after nm 0) with 0. ring.
  - rewrite eps_adv_after_S, IH. unfold eps_added_adv.
    assert (0 <= inject_Z (Z.of_nat k)).
    { change 0 with (inject_Z 0). rewrite <- Zle_Qle. lia. }
    rewrite Q.max_l by (rewrite inject_Z_S; lra).
    rewrite inject_Z_S. ring.
Qed.

Lemma eps_adv_after_lower nm (k : nat) :
  0.1 * inject_Z (Z.of_nat k) <= eps_adv_after nm k.
Proof.
  induction k as [|k IH]; [discriminate|].
  rewrite eps_adv_after_S, inject_Z_S. unfold eps_added_adv.
  pose proof (Q.le_max_r (0.2 + 0.1 * inject_Z (Z.of_nat (S k)) - 0.05 * nm) 0.1).
  lra.
Qed.

Lemma eps_adv_below_naive nm (k : nat) :
  0 <= nm -> (1 <= k)%nat -> eps_adv_after nm k < eps_naive_after k.
Proof.
  intros Hnm. induction k as [|k IH]; intros Hk; [lia|].
  rewrite eps_adv_after_S, eps_naive_after_S.
  assert (Hstep : eps_added_adv nm (Z.of_nat (S k)) < eps_added_naive (Z.of_nat (S k))).
  { unfold eps_added_adv, eps_added_naive.
    assert (1 <= inject_Z (Z.of_nat (S k))).
    { change 1 with (inject_Z 1). rewrite <- Zle_Qle. lia. }
    apply Q.max_lub_lt; lra. }
  destruct k as [|k].
  - change (eps_adv_after nm 0) with 0. change (eps_naive_after 0) with 0. lra.
  - assert (eps_adv_after nm (S k) < eps_naive_after (S k)) by (apply IH; lia). lra.
Qed.

(** X1. The record of round [r] lists, client by client, the entry of
    index [r] of each returned track. *)
Theorem records_align_with_tracks (nc : Z) (nm : Q) (nr : Z) (w : World) :
  (1 <= nc)%Z ->
  exists results tracks w',
    simulate_federated_training nc nm nr w = inr ((results, tracks), w')
    /\ forall r c, (1 <= r <= nr)%Z -> (0 <= c < nc)%Z ->
         exists rec t x,
           results !! Z.to_nat (r - 1) = Some rec
           /\ Z.of_nat (length (client_accuracies rec)) = nc
           /\ tracks !! Z.to_nat c = Some t
           /\ client_accuracies rec !! Z.to_nat c = Some x
           /\ t !! Z.to_nat r = Some x.
Proof.
  intros Hnc.
  destruct (simulate_run nc nm nr w) as (results & tracks & Hrun & F); [lia|].
  exists results, tracks, (final_world nc nr w). split; [exact Hrun|].
  intros r c Hr Hc.
  destruct (record_lookup results (Z.to_nat nr) r) as (rec & Hrec & Hj);
    [apply F|lia|].
  destruct (rf_record _ _ _ _ _ _ F _ _ Hrec) as (_ & _ & _ & _ & Hper).
  rewrite Hj in Hper.
  pose proof (Forall2_length _ _ _ Hper) as Hlen.
  rewrite (rf_clients _ _ _ _ _ _ F) in Hlen.
  destruct (lookup_lt_is_Some_2 (client_accuracies rec) (Z.to_nat c)) as [x Hx]; [lia|].
  destruct (Forall2_lookup_l _ _ _ _ _ Hper Hx) as (t & Ht & Htx).
  exists rec, t, x. repeat split; try assumption. lia.
Qed.

Lemma records_align_with_tracks_witness :
  (1 <= 2)%Z /\
  exists results tracks w',
    simulate_federated_training 2 1 3 (const_world 0.5) = inr ((results, tracks), w')
    /\ forall r c, (1 <= r <= 3)%Z -> (0 <= c < 2)%Z ->
         exists rec t x,
           results !! Z.to_nat (r - 1) = Some rec
           /\ Z.of_nat (length (client_accuracies rec)) = 2%Z
           /\ tracks !! Z.to_nat c = Some t
           /\ client_accuracies rec !! Z.to_nat c = Some x
           /\ t !! Z.to_nat r = Some x.
Proof.
  split; [lia|]. apply (records_align_with_tracks 2 1 3 (const_world 0.5)). lia.
Defined.

(** X2. Whatever the noise multiplier and whatever the random source
    gives, with at least one client no recorded client accuracy and no
    [global_accuracy] exceeds 1. *)
Theorem accuracy_at_most_1 (nc : Z) (nm : Q) (nr : Z) (w : World) :
  (1 <= nc)%Z ->
  exists results tracks w',
    simulate_federated_training nc nm nr w = inr ((results, tracks), w')
    /\ Forall (fun rec => Forall (fun x => x <= 1) (client_accuracies rec)
                          /\ global_accuracy rec <= 1) results.
Proof.
  intros Hnc.
  destruct (simulate_run nc nm nr w) as (results & tracks & Hrun & F); [lia|].
  exists results, tracks, (final_world nc nr w). split; [exact Hrun|].
  apply Forall_lookup_2. intros j rec Hrec.
  destruct (record_mean _ _ _ _ _ _ _ _ F Hnc Hrec) as [Hlen Hmean].
  destruct (rf_record _ _ _ _ _ _ F _ _ Hrec) as (_ & _ & _ & _ & Hper).
  assert (Hj : (j < Z.to_nat nr)%nat).
  { apply lookup_lt_Some in Hrec. now rewrite (rf_rounds _ _ _ _ _ _ F) in Hrec. }
  assert (Hall : Forall (fun x => x <= 1) (client_accuracies rec)).
  { apply Forall_lookup_2. intros c x Hx.
    destruct (Forall2_lookup_l _ _ _ _ _ Hper Hx) as (t & Ht & Htx).
    destruct (rf_next _ _ _ _ _ _ F _ _ _ Ht Hj) as (prev & _ & Hn).
    rewrite Hn in Htx. injection Htx as <-. apply next_acc_le_1. }
  split; [exact Hall|].
  rewrite Hmean. unfold mean. apply Qle_shift_div_r.
  - apply inject_Z_pos. lia.
  - apply Qsum_upper, Hall.
Qed.

Lemma accuracy_at_most_1_witness :
  (1 <= 2)%Z /\
  exists results tracks w',
    simulate_federated_training 2 (-5) 3 (const_world 7) = inr ((results, tracks), w')
    /\ Forall (fun rec => Forall (fun x => x <= 1) (client_accuracies rec)
                          /\ global_accuracy rec <= 1) results.
Proof.
  split; [lia|]. apply (accuracy_at_most_1 2 (-5) 3 (const_world 7)). lia.
Defined.



(** X4. [epsilon_naive] has a closed form: after round [r] it is
    [0.6*r + 0.1*r^2], whatever the other parameters. *)
Theorem epsilon_naive_closed_form (nc : Z) (nm : Q) (nr : Z) (w : World) :
  nc <> 0%Z ->
  exists results tracks w',
    simulate_federated_training nc nm nr w = inr ((results, tracks), w')
    /\ forall r, (1 <= r <= nr)%Z ->
         exists rec,
           results !! Z.to_nat (r - 1) = Some rec
           /\ epsilon_naive rec == 0.6 * inject_Z r + 0.1 * (inject_Z r * inject_Z r).
Proof.
  intros Hnc.
  destruct (simulate_run nc nm nr w Hnc) as (results & tracks & Hrun & F).
  exists results, tracks, (final_world nc nr w). split; [exact Hrun|].
  intros r Hr.
  destruct (record_lookup results (Z.to_nat nr) r) as (rec & Hrec & Hj);
    [apply F|lia|].
  exists rec. split; [exact Hrec|].
  destruct (rf_record _ _ _ _ _ _ F _ _ Hrec) as (_ & _ & -> & _).
  rewrite Hj, eps_naive_after_closed, Z2Nat.id by lia. reflexivity.
Qed.

Lemma epsilon_naive_closed_form_witness :
  2%Z <> 0%Z /\
  exists results tracks w',
    simulate_federated_training 2 1 3 (const_world 0.5) = inr ((results, tracks), w')
    /\ forall r, (1 <= r <= 3)%Z ->
         exists rec,
           results !! Z.to_nat (r - 1) = Some rec
           /\ epsilon_naive rec == 0.6 * inject_Z r + 0.1 * (inject_Z r * inject_Z r).
Proof.
  split; [lia|]. apply (epsilon_naive_closed_form 2 1 3 (const_world 0.5)). lia.
Defined.

(** X5. For [noise_multiplier <= 4] the floor [0.1] of the advanced
    increment is never the larger argument of [max], and
    [epsilon_advanced] after round [r] is
    [(0.25 - 0.05*noise_multiplier)*r + 0.05*r^2]. *)
Theorem epsilon_advanced_closed_form (nc : Z) (nm : Q) (nr : Z) (w : World) :
  nc <> 0%Z -> nm <= 4 ->
  exists results tracks w',
    simulate_federated_training nc nm nr w = inr ((results, tracks), w')
    /\ forall r, (1 <= r <= nr)%Z ->
         exists rec,
           results !! Z.to_nat (r - 1) = Some rec
           /\ epsilon_advanced rec
              == (0.25 - 0.05 * nm) * inject_Z r + 0.05 * (inject_Z r * inject_Z r).
Proof.
  intros Hnc Hnm.
  destruct (simulate_run nc nm nr w Hnc) as (results & tracks & Hrun & F).
  exists results, tracks, (final_world nc nr w). split; [exact Hrun|].
  intros r Hr.
  destruct (record_lookup results (Z.to_nat nr) r) as (rec & Hrec & Hj);
    [apply F|lia|].
  exists rec. split; [exact Hrec|].
  destruct (rf_record _ _ _ _ _ _ F _ _ Hrec) as (_ & -> & _).
  rewrite Hj, eps_adv_after_closed, Z2Nat.id by (assumption || lia). reflexivity.
Qed.

Lemma epsilon_advanced_closed_form_witness :
  2%Z <> 0%Z /\ 1 <= 4 /\
  exists results tracks w',
    simulate_federated_training 2 1 3 (const_world 0.5) = inr ((results, tracks), w')
    /\ forall r, (1 <= r <= 3)%Z ->
         exists rec,
           results !! Z.to_nat (r - 1) = Some rec
           /\ epsilon_advanced rec
              == (0.25 - 0.05 * 1) * inject_Z r + 0.05 * (inject_Z r * inject_Z r).
Proof.
  split; [lia|]. split; [discriminate|].
  apply (epsilon_advanced_closed_form 2 1 3 (const_world 0.5)); [lia|discriminate].
Defined.

(** X6. For [noise_multiplier >= 0], in every record [epsilon_advanced]
    is strictly below [epsilon_naive]. *)
Theorem epsilon_advanced_below_naive (nc : Z) (nm : Q) (nr : Z) (w : World) :
  nc <> 0%Z -> 0 <= nm ->
  exists results tracks w',
    simulate_federated_training nc nm nr w = inr ((results, tracks), w')
    /\ Forall (fun rec => epsilon_advanced rec < epsilon_naive rec) results.
Proof.
  intros Hnc Hnm.
  destruct (simulate_run nc nm nr w Hnc) as (results & tracks & Hrun & F).
  exists results, tracks, (final_world nc nr w). split; [exact Hrun|].
  apply Forall_lookup_2. intros j rec Hrec.
  destruct (rf_record _ _ _ _ _ _ F _ _ Hrec) as (_ & -> & -> & _).
  apply eps_adv_below_naive; [exact Hnm|lia].
Qed.

Lemma epsilon_advanced_below_naive_witness :
  2%Z <> 0%Z /\ 0 <= 1 /\
  exists results tracks w',
    simulate_federated_training 2 1 3 (const_world 0.5) = inr ((results, tracks), w')
    /\ Forall (fun rec => epsilon_advanced rec < epsilon_naive rec) results.
Proof.
  split; [lia|]. split; [discriminate|].
  apply (epsilon_advanced_below_naive 2 1 3 (const_world 0.5)); [lia|discriminate].
Defined.

(** X13. In exact arithmetic, whatever the noise multiplier, in every
    record [epsilon_advanced] is at least [0.1] times the round. *)
Theorem epsilon_advanced_lower_bound (nc : Z) (nm : Q) (nr : Z) (w : World) :
  nc <> 0%Z ->
  exists results tracks w',
    simulate_federated_training nc nm nr w = inr ((results, tracks), w')
    /\ Forall (fun rec => 0.1 * inject_Z (round rec) <= epsilon_advanced rec) results.
Proof.
  intros Hnc.
  destruct (simulate_run nc nm nr w Hnc) as (results & tracks & Hrun & F).
  exists results, tracks, (final_world nc nr w). split; [exact Hrun|].
  apply Forall_lookup_2. intros j rec Hrec.
  destruct (rf_record _ _ _ _ _ _ F _ _ Hrec) as (-> & -> & _).
  apply eps_adv_after_lower.
Qed.

Lemma epsilon_advanced_lower_bound_witness :
  2%Z <> 0%Z /\
  exists results tracks w',
    simulate_federated_training 2 100 3 (const_world 0.5) = inr ((results, tracks), w')
    /\ Forall (fun rec => 0.1 * inject_Z (round rec) <= epsilon_advanced rec) results.
Proof.
  split; [lia|]. apply (epsilon_advanced_lower_bound 2 100 3 (const_world 0.5)). lia.
Defined.

Lemma next_acc_ge_prev (rnd : Z) (nm raw prev : Q) :
  nm <= 1.5 -> 0 <= raw -> (1 <= rnd)%Z -> prev <= 1 ->
  prev <= next_acc rnd nm raw prev.
Proof.
  intros Hnm Hraw Hrnd Hprev. unfold next_acc.
  assert (1 <= inject_Z rnd) by (change 1 with (inject_Z 1); now rewrite <- Zle_Qle).
  apply Q.min_glb; lra.
Qed.

(** X7. For [noise_multiplier <= 1.5] and draws within their intervals
    no round lowers an accuracy: every returned track is non-decreasing. *)
Theorem tracks_never_decrease (nc : Z) (nm : Q) (nr : Z) (w : World) :
  nc <> 0%Z -> nm <= 1.5 ->
  (forall i, 0 <= source w i <= 1) ->
  exists results tracks w',
    simulate_federated_training nc nm nr w = inr ((results, tracks), w')
    /\ forall c t j x y,
         tracks !! c = Some t -> t !! j = Some x -> t !! S j = Some y -> x <= y.
Proof.
  intros Hnc Hnm Hsrc.
  destruct (simulate_run nc nm nr w Hnc) as (results & tracks & Hrun & F).
  exists results, tracks, (final_world nc nr w). split; [exact Hrun|].
  intros c t j x y Ht Hx Hy.
  pose proof (Forall_lookup_1 _ _ _ _ (rf_track_len _ _ _ _ _ _ F) Ht) as Hlen.
  cbv beta in Hlen.
  assert (Hj : (j < Z.to_nat nr)%nat) by (apply lookup_lt_Some in Hy; lia).
  destruct (rf_next _ _ _ _ _ _ F _ _ _ Ht Hj) as (prev & Hp & Hn).
  rewrite Hp in Hx. injection Hx as ->. rewrite Hn in Hy. injection Hy as <-.
  apply next_acc_ge_prev; [exact Hnm|apply Hsrc|lia|].
  now apply (track_bounds _ _ _ _ _ _ _ _ F Hsrc Ht j x).
Qed.

Lemma tracks_never_decrease_witness :
  2%Z <> 0%Z /\ 1 <= 1.5 /\
  (forall i, 0 <= source (const_world 0.5) i <= 1) /\
  exists results tracks w',
    simulate_federated_training 2 1 3 (const_world 0.5) = inr ((results, tracks), w')
    /\ forall c t j x y,
         tracks !! c = Some t -> t !! j = Some x -> t !! S j = Some y -> x <= y.
Proof.
  assert (Hsrc : forall i, 0 <= source (const_world 0.5) i <= 1)
    by (intros i; split; vm_compute; discriminate).
  split; [lia|]. split; [discriminate|]. split; [exact Hsrc|].
  apply (tracks_never_decrease 2 1 3 (const_world 0.5)); [lia|discriminate|exact Hsrc].
Defined.

Lemma rounds_run nc nm w0 (m : nat) :
  nc <> 0%Z ->
  exists st w',
    for_each (Z.of_nat <$> seq 1 m) (round_body nc nm)
             ([], 0, 0, (fun i => [seed_of w0 i]) <$> seq 0 (Z.to_nat nc))
             (mkWorld (source w0) (draws w0 + Z.to_nat nc) (pauses w0))
    = inr (st, w')
    /\ rounds_inv nc nm w0 m st w'.
Proof.
  intros Hnc.
  exact (round_loop_inv nc nm (rounds_inv nc nm w0) Hnc
           (rounds_inv_ready nc nm w0) (rounds_inv_step nc nm w0)
           m 0%nat _ _ (rounds_inv_init nc nm w0)).
Qed.

Lemma simulate_as_loop nc nm nr w :
  simulate_federated_training nc nm nr w
  = (st <- for_each (Z.of_nat <$> seq 1 (Z.to_nat nr)) (round_body nc nm)
                    ([], 0, 0, (fun i => [seed_of w i]) <$> seq 0 (Z.to_nat nc)) ;;
     let '(results, _, _, tracks') := st in
     ret (results, tracks'))
      (mkWorld (source w) (draws w + Z.to_nat nc) (pauses w)).
Proof.
  unfold simulate_federated_training.
  erewrite bind_ok by apply seeds_run.
  now rewrite length_range_0, range_from_1.
Qed.

(** X8. Asking for one more round keeps what the shorter run returns:
    from the same world, the records of [num_rounds + 1] rounds are those of
    [num_rounds] rounds followed by one more, and each track is the shorter
    run's track followed by one more value. *)
Theorem one_more_round (nc : Z) (nm : Q) (nr : Z) (w : World) :
  nc <> 0%Z -> (0 <= nr)%Z ->
  exists results tracks w1 rec tracks' w2,
    simulate_federated_training nc nm nr w = inr ((results, tracks), w1)
    /\ simulate_federated_training nc nm (nr + 1) w
       = inr ((results ++ [rec], tracks'), w2)
    /\ round rec = (nr + 1)%Z
    /\ Forall2 (fun t t' => exists x, t' = t ++ [x]) tracks tracks'.
Proof.
  intros Hnc Hnr.
  destruct (rounds_run nc nm w (Z.to_nat nr) Hnc)
    as ([[[results ge] ne] tracks] & w1 & Hloop & Hinv).
  pose proof (rounds_inv_ready _ _ _ _ _ _ Hinv) as Hready.
  pose proof (round_body_run nc nm (Z.of_nat (S (Z.to_nat nr))) results ge ne
                tracks w1 Hnc Hready) as Hlast.
  cbn [round_step] in Hlast.
  exists results, tracks, w1. do 3 eexists.
  rewrite !simulate_as_loop.
  split; [now erewrite bind_ok by exact Hloop|]. split; [|split].
  - replace (Z.to_nat (nr + 1)) with (S (Z.to_nat nr)) by lia.
    erewrite bind_ok.
    2:{ rewrite seq_S, fmap_app, for_each_app.
        erewrite bind_ok by exact Hloop.
        cbn [fmap list_fmap for_each].
        erewrite bind_ok by exact Hlast. reflexivity. }
    reflexivity.
  - cbn [round]. lia.
  - apply Forall2_same_length_lookup_2.
    + unfold round_tracks. now rewrite length_imap.
    + intros c t t' Ht Ht'.
      apply lookup_round_tracks in Ht' as (t2 & Ht2 & ->).
      assert (t2 = t) by congruence. subst t2. eexists. reflexivity.
Qed.

Lemma one_more_round_witness :
  2%Z <> 0%Z /\ (0 <= 3)%Z /\
  exists results tracks w1 rec tracks' w2,
    simulate_federated_training 2 1 3 (const_world 0.5) = inr ((results, tracks), w1)
    /\ simulate_federated_training 2 1 (3 + 1) (const_world 0.5)
       = inr ((results ++ [rec], tracks'), w2)
    /\ round rec = (3 + 1)%Z
    /\ Forall2 (fun t t' => exists x, t' = t ++ [x]) tracks tracks'.
Proof.
  split; [lia|]. split; [lia|].
  apply (one_more_round 2 1 3 (const_world 0.5)); lia.
Defined.

(** * The page *)

Lemma ui_bind_ok {A B} (m : UI A) (k : A -> UI B) p w x p' w' :
  m p w = inr (x, p', w') -> ui_bind m k p w = k x p' w'.
Proof. intros E. unfold ui_bind. now rewrite E. Qed.

Lemma run_ok {A} (m : M A) p w x w' :
  m w = inr (x, w') -> run m p w = inr (x, p, w').
Proof. intros E. unfold run. now rewrite E. Qed.

Lemma show_each {A} (g : A -> element) (l : list A) :
  forall p w,
    ui_for_each l (fun x => show (g x)) p w
    = inr (tt, mkPage (session_state p) (rendered p ++ (g <$> l)), w).
Proof.
  induction l as [|x l IH]; intros p w.
  - cbn. unfold ui_ret. rewrite app_nil_r. now destruct p.
  - cbn [ui_for_each fmap list_fmap].
    erewrite ui_bind_ok by reflexivity. rewrite IH.
    cbn [session_state rendered]. now rewrite <- app_assoc.
Qed.

Lemma ui_for_each_ext {A} (f g : A -> UI unit) (l : list A) :
  (forall x, f x = g x) -> ui_for_each l f = ui_for_each l g.
Proof.
  intros H. induction l as [|x l IH]; [reflexivity|].
  cbn [ui_for_each]. now rewrite H, IH.
Qed.

Lemma getitem_last_fmap {A B} (f : A -> B) (l : list A) (x : A) w :
  last l = Some x -> getitem (f <$> l) (-1) w = inr (f x, w).
Proof. intros H. apply getitem_last. now rewrite fmap_last, H. Qed.

(** [main] up to the test of the flag. *)
Lemma main_opening (ui : Widgets) (p : Page) (w : World) :
  main ui p w
  = (if triggered ui p
     then train_and_render (clients_slider ui) (noise_slider ui) (rounds_slider ui)
     else show (Write "Use the sidebar to configure and run a training session."))
      (mkPage (<["run_training" := triggered ui p]> (session_state p))
              (rendered p ++ opening))
      w.
Proof.
  unfold main, triggered, opening, st_slider, st_button, show, ui_ret.
  unfold ui_bind at 1 2 3 4 5 6 7 8. cbn [session_state rendered].
  rewrite <- !app_assoc. cbn [app].
  destruct (start_button ui).
  - unfold ui_bind, session_set, session_attr. cbn [session_state rendered].
    rewrite lookup_insert_eq. reflexivity.
  - unfold ui_bind, session_get, session_set, session_attr.
    cbn [session_state rendered orb].
    rewrite lookup_insert_eq. reflexivity.
Qed.

(** The training branch, once the simulator has returned at least one
    record. *)
Lemma train_and_render_run nc nm nr results tracks final w w' p :
  simulate_federated_training nc nm nr w = inr ((results, tracks), w') ->
  last results = Some final ->
  train_and_render nc nm nr p w
  = inr (tt,
         mkPage (<["run_training" := false]> (session_state p))
                (rendered p ++ training_report nc nm nr results tracks final),
         w').
Proof.
  intros Hsim Hlast. unfold train_and_render.
  erewrite ui_bind_ok by reflexivity.
  erewrite ui_bind_ok by (apply run_ok, Hsim).
  cbv beta iota.
  do 8 (erewrite ui_bind_ok by reflexivity; cbn [session_state rendered]).
  rewrite (ui_for_each_ext _
             (fun x => show ((fun '(client_id, acc_history) =>
                LineChart [("Client " +:+ pretty (client_id + 1)%Z, acc_history)]) x)))
    by (intros [i t]; reflexivity).
  erewrite ui_bind_ok by apply show_each.
  cbn [session_state rendered].
  erewrite ui_bind_ok by reflexivity.
  erewrite ui_bind_ok by (apply run_ok, getitem_last_fmap, Hlast).
  erewrite ui_bind_ok by reflexivity.
  erewrite ui_bind_ok by (apply run_ok, getitem_last_fmap, Hlast).
  erewrite ui_bind_ok by reflexivity.
  erewrite ui_bind_ok by (apply run_ok, getitem_last_fmap, Hlast).
  unfold show, training_report, client_charts. cbn [session_state rendered].
  repeat rewrite <- app_assoc. reflexivity.
Qed.

Lemma last_of_rounds nc nm w0 k results tracks :
  run_facts nc nm w0 k results tracks -> (1 <= k)%nat ->
  exists final, last results = Some final /\ round final = Z.of_nat k.
Proof.
  intros F Hk. pose proof (rf_rounds _ _ _ _ _ _ F) as Hlen.
  destruct (lookup_lt_is_Some_2 results (pred k)) as [final Hfinal]; [lia|].
  exists final. split.
  - now rewrite last_lookup, Hlen.
  - destruct (rf_record _ _ _ _ _ _ F _ _ Hfinal) as [-> _]. lia.
Qed.

Lemma main_trains_run (ui : Widgets) (p : Page) (w : World) :
  within_sliders ui -> triggered ui p = true ->
  exists results tracks final w',
    simulate_federated_training (clients_slider ui) (noise_slider ui)
                                (rounds_slider ui) w
    = inr ((results, tracks), w')
    /\ last results = Some final
    /\ round final = rounds_slider ui
    /\ main ui p w
       = inr (tt,
              mkPage (<["run_training" := false]> (session_state p))
                     (rendered p ++ opening
                      ++ training_report (clients_slider ui) (noise_slider ui)
                           (rounds_slider ui) results tracks final),
              w').
Proof.
  intros (Hnc & _ & Hnr) Htrig.
  destruct (simulate_run (clients_slider ui) (noise_slider ui) (rounds_slider ui) w)
    as (results & tracks & Hrun & F); [lia|].
  destruct (last_of_rounds _ _ _ _ _ _ F) as (final & Hlast & Hround); [lia|].
  exists results, tracks, final, (final_world (clients_slider ui) (rounds_slider ui) w).
  split; [exact Hrun|]. split; [exact Hlast|]. split; [lia|].
  rewrite main_opening, Htrig.
  rewrite (train_and_render_run _ _ _ _ _ _ _ _ _ Hrun Hlast).
  cbn [session_state rendered]. now rewrite insert_insert_eq, <- app_assoc.
Qed.

Lemma main_idle_run (ui : Widgets) (p : Page) (w : World) :
  triggered ui p = false ->
  main ui p w
  = inr (tt,
         mkPage (<["run_training" := false]> (session_state p))
                (rendered p ++ opening
                 ++ [Write "Use the sidebar to configure and run a training session."]),
         w).
Proof.
  intros Htrig. rewrite main_opening, Htrig. unfold show.
  cbn [session_state rendered]. now rewrite <- app_assoc.
Qed.

(** X9. With the three sliders within their bounds [main] never raises,
    whatever the session holds and whatever the random source gives; when
    it returns, [run_training] is set and false, and no other key of the
    session has changed. *)
Theorem main_returns_with_flag_lowered (ui : Widgets) (p : Page) (w : World) :
  within_sliders ui ->
  exists p' w',
    main ui p w = inr (tt, p', w')
    /\ session_state p' !! "run_training" = Some false
    /\ forall key, key <> "run_training" ->
         session_state p' !! key = session_state p !! key.
Proof.
  intros Hui.
  assert (Hstate : exists p' w',
             main ui p w = inr (tt, p', w')
             /\ session_state p' = <["run_training" := false]> (session_state p)).
  { destruct (triggered ui p) eqn:Htrig.
    - destruct (main_trains_run ui p w Hui Htrig)
        as (results & tracks & final & w' & _ & _ & _ & Hmain).
      eexists _, w'. split; [exact Hmain|reflexivity].
    - eexists _, w. split; [exact (main_idle_run ui p w Htrig)|reflexivity]. }
  destruct Hstate as (p' & w' & Hmain & Hss).
  exists p', w'. split; [exact Hmain|]. rewrite Hss. split.
  - apply lookup_insert_eq.
  - intros key Hkey. now apply lookup_insert_ne.
Qed.

Lemma main_returns_with_flag_lowered_witness :
  within_sliders (mkWidgets 2 1 3 true) /\
  exists p' w',
    main (mkWidgets 2 1 3 true) (mkPage ∅ []) (const_world 0.5) = inr (tt, p', w')
    /\ session_state p' !! "run_training" = Some false
    /\ forall key, key <> "run_training" ->
         session_state p' !! key = session_state (mkPage ∅ []) !! key.
Proof.
  assert (Hui : within_sliders (mkWidgets 2 1 3 true)).
  { split; [simpl; lia|]. split; [split; vm_compute; discriminate|simpl; lia]. }
  split; [exact Hui|].
  apply (main_returns_with_flag_lowered (mkWidgets 2 1 3 true) (mkPage ∅ [])
           (const_world 0.5) Hui).
Defined.

(** X10. When the button was not clicked and the session holds no raised
    flag, [main] does not call the simulator: it draws nothing and does not
    pause, displays its opening and the hint, and leaves the flag false. *)
Theorem main_idle (ui : Widgets) (p : Page) (w : World) :
  start_button ui = false ->
  session_state p !! "run_training" <> Some true ->
  main ui p w
  = inr (tt,
         mkPage (<["run_training" := false]> (session_state p))
                (rendered p ++ opening
                 ++ [Write "Use the sidebar to configure and run a training session."]),
         w).
Proof.
  intros Hbutton Hflag. apply main_idle_run. unfold triggered.
  rewrite Hbutton. destruct (session_state p !! "run_training") as [[|]|];
    [contradiction|reflexivity|reflexivity].
Qed.

Lemma main_idle_witness :
  start_button (mkWidgets 2 1 3 false) = false /\
  session_state (mkPage ∅ []) !! "run_training" <> Some true /\
  main (mkWidgets 2 1 3 false) (mkPage ∅ []) (const_world 0.5)
  = inr (tt,
         mkPage (<["run_training" := false]> (session_state (mkPage ∅ [])))
                (rendered (mkPage ∅ []) ++ opening
                 ++ [Write "Use the sidebar to configure and run a training session."]),
         const_world 0.5).
Proof.
  assert (Hflag : session_state (mkPage ∅ []) !! "run_training" <> Some true)
    by (vm_compute; discriminate).
  split; [reflexivity|]. split; [exact Hflag|].
  apply (main_idle (mkWidgets 2 1 3 false) (mkPage ∅ []) (const_world 0.5));
    [reflexivity|exact Hflag].
Defined.

(** X11. When the button was clicked, or the session holds a raised
    flag, and the sliders are within their bounds, [main] runs the
    simulator once on the values of the sliders and displays, after its
    opening: the notice, the chart of [global_accuracy] (one point per
    round), the chart of the two epsilons, one chart per client numbered
    from 1 (one point per round and one for the seed), and the three
    readouts, which are those of the record of the last round, rounded to 4
    digits. *)
Theorem main_trains (ui : Widgets) (p : Page) (w : World) :
  within_sliders ui -> triggered ui p = true ->
  exists results tracks final w',
    simulate_federated_training (clients_slider ui) (noise_slider ui)
                                (rounds_slider ui) w
    = inr ((results, tracks), w')
    /\ last results = Some final
    /\ round final = rounds_slider ui
    /\ main ui p w
       = inr (tt,
              mkPage (<["run_training" := false]> (session_state p))
                     (rendered p ++ opening
                      ++ training_report (clients_slider ui) (noise_slider ui)
                           (rounds_slider ui) results tracks final),
              w')
    /\ Z.of_nat (length results) = rounds_slider ui
    /\ Z.of_nat (length (client_charts tracks)) = clients_slider ui
    /\ Forall (fun t => Z.of_nat (length t) = (rounds_slider ui + 1)%Z) tracks.
Proof.
  intros Hui Htrig.
  destruct (main_trains_run ui p w Hui Htrig)
    as (results & tracks & final & w' & Hsim & Hlast & Hround & Hmain).
  exists results, tracks, final, w'.
  split; [exact Hsim|]. split; [exact Hlast|]. split; [exact Hround|].
  split; [exact Hmain|].
  destruct Hui as (Hnc & _ & Hnr).
  destruct (simulate_run (clients_slider ui) (noise_slider ui) (rounds_slider ui) w)
    as (results2 & tracks2 & Hrun & F); [lia|].
  rewrite Hsim in Hrun. injection Hrun as <- <- _.
  split; [rewrite (rf_rounds _ _ _ _ _ _ F); lia|]. split.
  - unfold client_charts, enumerate.
    rewrite length_fmap, length_imap, (rf_clients _ _ _ _ _ _ F). lia.
  - eapply Forall_impl; [exact (rf_track_len _ _ _ _ _ _ F)|].
    intros t Ht. cbv beta in Ht. lia.
Qed.

Lemma main_trains_witness :
  within_sliders (mkWidgets 2 1 3 true) /\
  triggered (mkWidgets 2 1 3 true) (mkPage ∅ []) = true /\
  exists results tracks final w',
    simulate_federated_training 2 1 3 (const_world 0.5)
    = inr ((results, tracks), w')
    /\ last results = Some final
    /\ round final = 3%Z
    /\ main (mkWidgets 2 1 3 true) (mkPage ∅ []) (const_world 0.5)
       = inr (tt,
              mkPage (<["run_training" := false]> ∅)
                     ([] ++ opening ++ training_report 2 1 3 results tracks final),
              w')
    /\ Z.of_nat (length results) = 3%Z
    /\ Z.of_nat (length (client_charts tracks)) = 2%Z
    /\ Forall (fun t => Z.of_nat (length t) = (3 + 1)%Z) tracks.
Proof.
  assert (Hui : within_sliders (mkWidgets 2 1 3 true)).
  { split; [simpl; lia|]. split; [split; vm_compute; discriminate|simpl; lia]. }
  split; [exact Hui|]. split; [reflexivity|].
  apply (main_trains (mkWidgets 2 1 3 true) (mkPage ∅ []) (const_world 0.5) Hui).
  reflexivity.
Defined.

(** X12. A training run is not repeated by the next run of the script:
    after [main] has returned, running it again on the page it left,
    without a click, only displays the opening and the hint and leaves the
    world as it is. *)
Theorem no_training_on_rerun (ui ui' : Widgets) (p p' : Page) (w w' : World) :
  within_sliders ui ->
  main ui p w = inr (tt, p', w') ->
  start_button ui' = false ->
  main ui' p' w'
  = inr (tt,
         mkPage (session_state p')
                (rendered p' ++ opening
                 ++ [Write "Use the sidebar to configure and run a training session."]),
         w').
Proof.
  intros Hui Hmain Hbutton.
  assert (Hflag : session_state p' !! "run_training" = Some false).
  { destruct (triggered ui p) eqn:Htrig.
    - destruct (main_trains_run ui p w Hui Htrig)
        as (results & tracks & final & w2 & _ & _ & _ & Hmain2).
      rewrite Hmain in Hmain2. injection Hmain2 as -> _.
      apply lookup_insert_eq.
    - rewrite (main_idle_run ui p w Htrig) in Hmain. injection Hmain as <- _.
      apply lookup_insert_eq. }
  rewrite main_idle_run by (unfold triggered; now rewrite Hbutton, Hflag).
  now rewrite (insert_id _ _ _ Hflag).
Qed.

Lemma no_training_on_rerun_witness :
  within_sliders (mkWidgets 1 1 1 true) /\
  exists p' w',
    main (mkWidgets 1 1 1 true) (mkPage ∅ []) (const_world 0.5) = inr (tt, p', w')
    /\ start_button (mkWidgets 5 2 7 false) = false
    /\ main (mkWidgets 5 2 7 false) p' w'
       = inr (tt,
              mkPage (session_state p')
                     (rendered p' ++ opening
                      ++ [Write "Use the sidebar to configure and run a training session."]),
              w').
Proof.
  assert (Hui : within_sliders (mkWidgets 1 1 1 true)).
  { split; [simpl; lia|]. split; [split; vm_compute; discriminate|simpl; lia]. }
  split; [exact Hui|].
  destruct (main_trains_run (mkWidgets 1 1 1 true) (mkPage ∅ []) (const_world 0.5) Hui)
    as (results & tracks & final & w' & _ & _ & _ & Hmain); [reflexivity|].
  eexists _, w'. split; [exact Hmain|]. split; [reflexivity|].
  exact (no_training_on_rerun (mkWidgets 1 1 1 true) (mkWidgets 5 2 7 false)
           (mkPage ∅ []) _ (const_world 0.5) w' Hui Hmain eq_refl).
Defined.
